(** * Node-Markov: the word-level and bigram Markov text generators

    A shallow embedding of the two [MarkovMachine] classes (markov.js, the
    order-1 machine, and bigram.js, the order-2 machine) and the properties
    of their tokenizer, chain construction and random walk.

    JavaScript values that the two classes manipulate are strings, [null]
    and [undefined]; a [Map] is an insertion-ordered association list;
    [Math.random()] is a stream of rationals indexed by the number of calls
    made so far; a call that raises is a [Throw], and a loop that is cut
    short by its iteration budget is a [Timeout].  Strings are [string]s of
    one-byte characters: the three separators of the tokenizer and the
    space of the bigram keys are among them, and any other character is
    carried along untouched. *)

From Stdlib Require Import List Bool Arith ZArith QArith Qround Lia.
From Stdlib Require Import Ascii String.
Import ListNotations.

Open Scope string_scope.
Open Scope list_scope.

(** ** JavaScript values *)

Inductive value : Type :=
| VUndefined
| VNull
| VStr (s : string).

Definition value_eqb (a b : value) : bool :=
  match a, b with
  | VUndefined, VUndefined => true
  | VNull, VNull => true
  | VStr s, VStr t => String.eqb s t
  | _, _ => false
  end.

(** [a !== null] *)
Definition is_null (a : value) : bool :=
  match a with VNull => true | _ => false end.

(** ToBoolean on the values at hand: [undefined], [null] and the empty
    string are falsy. *)
Definition truthy (a : value) : bool :=
  match a with
  | VUndefined | VNull => false
  | VStr s => negb (String.eqb s "")
  end.

(** [a || b] *)
Definition js_or (a b : value) : value := if truthy a then a else b.

(** ToString, as applied by [+] to a non-string operand. *)
Definition to_js_string (a : value) : string :=
  match a with
  | VUndefined => "undefined"
  | VNull => "null"
  | VStr s => s
  end.

(** [a + b] where one operand is a string. *)
Definition js_concat (a b : value) : value :=
  VStr (to_js_string a ++ to_js_string b).

(** [ar[i]] on an array: [undefined] outside its bounds. *)
Definition array_get {A : Type} (inj : A -> value) (ar : list A) (i : Z) : value :=
  if (i <? 0)%Z then VUndefined
  else match nth_error ar (Z.to_nat i) with
       | Some x => inj x
       | None => VUndefined
       end.

(** [Array.prototype.join]: [undefined] and [null] elements print as the
    empty string. *)
Definition join_elem (a : value) : string :=
  match a with
  | VStr s => s
  | _ => ""
  end.

Fixpoint join (sep : string) (ar : list value) : string :=
  match ar with
  | [] => ""
  | [a] => join_elem a
  | a :: rest => join_elem a ++ sep ++ join sep rest
  end.

(** ** Outcome of a call *)

Inductive error : Type := TypeError.

Inductive result (A : Type) : Type :=
| Return (a : A)
| Throw (e : error)
| Timeout.

Arguments Return {A} a.
Arguments Throw {A} e.
Arguments Timeout {A}.

Definition result_map {A B : Type} (f : A -> B) (r : result A) : result B :=
  match r with
  | Return a => Return (f a)
  | Throw e => Throw e
  | Timeout => Timeout
  end.

(** ** Tokenizer: [text.split(/[ \r\n]+/).filter(c => c !== "")] *)

(** The character class [[ \r\n]]. *)
Definition is_delim (c : ascii) : bool :=
  (Ascii.eqb c " " || Ascii.eqb c "013" || Ascii.eqb c "010")%bool.

(** [String.prototype.split] with the separator [/[ \r\n]+/].  [split_re cur s]
    is the split loop at a position [q] with [cur = S[p..q)] and [s = S[q..]]:
    when the pattern does not match at [q] the position advances by one; when
    it matches, [cur] is pushed and the greedy [+] consumes the whole run
    ([skip_re]), after which [p = q] is the end of the match.  At the end of
    the string the pending [S[p..size)] is pushed. *)
Fixpoint split_re (cur : string) (s : string) : list string :=
  match s with
  | EmptyString => [cur]
  | String c rest =>
      if is_delim c then cur :: skip_re rest
      else split_re (cur ++ String c "") rest
  end
with skip_re (s : string) : list string :=
  match s with
  | EmptyString => [""]
  | String c rest =>
      if is_delim c then skip_re rest
      else split_re (String c "") rest
  end.

(** The filter of the tokenizer: [c => c !== ""]. *)
Definition nonempty (c : string) : bool := negb (String.eqb c "").

Definition tokenize (text : string) : list string :=
  filter nonempty (split_re "" text).

(** ** [Map], insertion ordered *)

Definition Map : Type := list (value * list value).

Fixpoint map_get (m : Map) (k : value) : option (list value) :=
  match m with
  | [] => None
  | (k', ar) :: m' => if value_eqb k k' then Some ar else map_get m' k
  end.

Definition map_has (m : Map) (k : value) : bool :=
  match map_get m k with Some _ => true | None => false end.

(** [m.set(k, ar)]: a new key goes last, an existing key keeps its place. *)
Fixpoint map_set (m : Map) (k : value) (ar : list value) : Map :=
  match m with
  | [] => [(k, ar)]
  | (k', ar') :: m' =>
      if value_eqb k k' then (k', ar) :: m' else (k', ar') :: map_set m' k ar
  end.

(** [m.get(k).push(x)]: the array stored under [k] is extended in place. *)
Fixpoint map_push (m : Map) (k : value) (x : value) : Map :=
  match m with
  | [] => []
  | (k', ar) :: m' =>
      if value_eqb k k' then (k', ar ++ [x]) :: m' else (k', ar) :: map_push m' k x
  end.

(** [Array.from(m.keys())] *)
Definition map_keys (m : Map) : list value := map fst m.

(** ** [choice]: [ar[Math.floor(Math.random() * ar.length)]]

    [r] is the number [Math.random()] returned, and the product with the
    length is taken exactly; the array argument is [None] when the caller
    passed [undefined], whose [.length] raises. *)
Definition choice (r : Q) (ar : option (list value)) : result value :=
  match ar with
  | None => Throw TypeError
  | Some ar =>
      Return (array_get (fun v => v) ar
                (Qfloor (r * inject_Z (Z.of_nat (List.length ar)))))
  end.

(** [this.words[i]] *)
Definition word_at (words : list string) (i : Z) : value :=
  array_get VStr words i.

(** [numWords = 100] *)
Definition default_numWords : Z := 100%Z.

(** ** markov.js: the order-1 machine *)

Module Markov.

Record MarkovMachine : Type := { words : list string; chains : Map }.

(** One iteration of the [for] loop of [makeChains]. *)
Definition makeChains_step (words : list string) (chains : Map) (i : nat) : Map :=
  let word := word_at words (Z.of_nat i) in
  let nextWord := js_or (word_at words (Z.of_nat i + 1)) VNull in
  if map_has chains word then map_push chains word nextWord
  else map_set chains word [nextWord].

(** [for (let i = 0; i < this.words.length; i += 1)] *)
Definition makeChains (words : list string) : Map :=
  fold_left (makeChains_step words) (seq 0 (List.length words)) [].

(** [new MarkovMachine(text)] *)
Definition constructor (text : string) : MarkovMachine :=
  let words := tokenize text in
  {| words := words; chains := makeChains words |}.

Section MakeText.
(** [rng n] is what the call number [n] of [Math.random()] returns. *)
Variable rng : nat -> Q.

(** The [while] loop of [makeText]; [fuel] bounds the iterations and
    [calls] counts the random numbers drawn so far. *)
Fixpoint makeText_loop (fuel : nat) (chains : Map) (numWords : Z)
    (out : list value) (key : value) (calls : nat) : result (list value) :=
  if ((Z.of_nat (List.length out) <? numWords)%Z && negb (is_null key))%bool then
    match fuel with
    | O => Timeout
    | S fuel' =>
        match choice (rng calls) (map_get chains key) with
        | Return key' =>
            makeText_loop fuel' chains numWords (out ++ [key]) key' (S calls)
        | Throw e => Throw e
        | Timeout => Timeout
        end
    end
  else Return out.

(** The array [out] at the [return] of [makeText]. *)
Definition makeText_out (m : MarkovMachine) (numWords : Z) (fuel : nat)
    : result (list value) :=
  let keys := map_keys (chains m) in
  match choice (rng 0) (Some keys) with
  | Return key => makeText_loop fuel (chains m) numWords [] key 1
  | Throw e => Throw e
  | Timeout => Timeout
  end.

Definition makeText (m : MarkovMachine) (numWords : Z) (fuel : nat)
    : result string :=
  result_map (join " ") (makeText_out m numWords fuel).
End MakeText.

End Markov.

(** ** bigram.js: the order-2 machine *)

(** [key.split(" ")]: a split at every single space. *)
Fixpoint split_sp (cur : string) (s : string) : list string :=
  match s with
  | EmptyString => [cur]
  | String c rest =>
      if Ascii.eqb c " " then cur :: split_sp "" rest
      else split_sp (cur ++ String c "") rest
  end.

Module Bigram.

Record MarkovMachine : Type := { words : list string; chains : Map }.

(** One iteration of the [for] loop of [makeChains]. *)
Definition makeChains_step (words : list string) (chains : Map) (i : nat) : Map :=
  let bigram :=
    js_concat (js_concat (word_at words (Z.of_nat i)) (VStr " "))
              (word_at words (Z.of_nat i + 1)) in
  let nextWord := js_or (word_at words (Z.of_nat i + 2)) VNull in
  if map_has chains bigram then map_push chains bigram nextWord
  else map_set chains bigram [nextWord].

(** [for (let i = 0; i < this.words.length - 1; i += 1)] *)
Definition makeChains (words : list string) : Map :=
  fold_left (makeChains_step words)
            (seq 0 (Z.to_nat (Z.of_nat (List.length words) - 1))) [].

(** [new MarkovMachine(text)] *)
Definition constructor (text : string) : MarkovMachine :=
  let words := tokenize text in
  {| words := words; chains := makeChains words |}.

Section MakeText.
Variable rng : nat -> Q.

(** The [while] loop of [makeText].  [key.split] raises on [undefined];
    the new key is a string concatenation, whatever [choice] returned. *)
Fixpoint makeText_loop (fuel : nat) (chains : Map) (numWords : Z)
    (out : list value) (key : value) (calls : nat) : result (list value) :=
  if ((Z.of_nat (List.length out) <=? numWords)%Z && negb (is_null key))%bool then
    match fuel with
    | O => Timeout
    | S fuel' =>
        match key with
        | VStr k =>
            let parts := split_sp "" k in
            let w1 := array_get VStr parts 0 in
            let w2 := array_get VStr parts 1 in
            match choice (rng calls) (map_get chains key) with
            | Return nxt =>
                makeText_loop fuel' chains numWords (out ++ [w1])
                  (js_concat (js_concat w2 (VStr " ")) nxt) (S calls)
            | Throw e => Throw e
            | Timeout => Timeout
            end
        | _ => Throw TypeError
        end
    end
  else Return out.

Definition makeText_out (m : MarkovMachine) (numWords : Z) (fuel : nat)
    : result (list value) :=
  let keys := map_keys (chains m) in
  match choice (rng 0) (Some keys) with
  | Return key => makeText_loop fuel (chains m) numWords [] key 1
  | Throw e => Throw e
  | Timeout => Timeout
  end.

Definition makeText (m : MarkovMachine) (numWords : Z) (fuel : nat)
    : result string :=
  result_map (join " ") (makeText_out m numWords fuel).
End MakeText.

End Bigram.

(** ** Specification vocabulary *)

Fixpoint string_forallb (p : ascii -> bool) (s : string) : bool :=
  match s with
  | EmptyString => true
  | String c rest => (p c && string_forallb p rest)%bool
  end.

(** A run of separators, and a string free of them. *)
Definition all_delims (s : string) : Prop := string_forallb is_delim s = true.
Definition no_delim (s : string) : Prop :=
  string_forallb (fun c => negb (is_delim c)) s = true.

(** The end of the text, or a separator: where a token may stop. *)
Definition at_boundary (s : string) : Prop :=
  match s with
  | EmptyString => True
  | String c _ => is_delim c = true
  end.

(** [splits_into text ts]: [text] is a run of separators, then the first
    token of [ts] unchanged, which stops at a boundary, and so on; the text
    ends with a (possibly empty) run of separators. *)
Inductive splits_into : string -> list string -> Prop :=
| splits_done (d : string) :
    all_delims d -> splits_into d []
| splits_token (d t rest : string) (ts : list string) :
    all_delims d -> t <> "" -> no_delim t -> at_boundary rest ->
    splits_into rest ts ->
    splits_into (d ++ t ++ rest)%string (t :: ts).

(** White space of ECMAScript (the WhiteSpace and LineTerminator code points)
    among the one-byte characters: TAB, LF, VT, FF, CR, SP and NBSP. *)
Definition is_whitespace (c : ascii) : bool :=
  let n := nat_of_ascii c in
  ((9 <=? n) && (n <=? 13) || (n =? 32) || (n =? 160))%bool%nat.

Definition no_whitespace (s : string) : Prop :=
  string_forallb (fun c => negb (is_whitespace c)) s = true.

(** The text ["a<TAB>b"]. *)
Definition text_with_tab : string := String "a" (String "009" (String "b" "")).

(** ** What a chain table records *)

(** [None] for a key that was never inserted, the array otherwise. *)
Definition opt_list (l : list value) : option (list value) :=
  match l with
  | [] => None
  | _ => Some l
  end.

(** The build loop of both machines, over the key and the successor of each
    index: append to the array of the key, or insert the key with a new
    one-element array. *)
Definition build_step (keyf succf : nat -> value) (chains : Map) (i : nat) : Map :=
  if map_has chains (keyf i) then map_push chains (keyf i) (succf i)
  else map_set chains (keyf i) [succf i].

Definition build (keyf succf : nat -> value) (n : nat) : Map :=
  fold_left (build_step keyf succf) (seq 0 n) [].

(** The successors observed after the indices in [0..n) whose key is [k],
    in index order. *)
Definition observed (keyf succf : nat -> value) (n : nat) (k : value) : list value :=
  map succf (filter (fun i => value_eqb (keyf i) k) (seq 0 n)).

(** The token at position [j], or the END sentinel past the last token. *)
Definition successor_at (words : list string) (j : nat) : value :=
  match nth_error words j with
  | Some w => VStr w
  | None => VNull
  end.

(** Order 1: the indices at which the token [k] occurs, and what follows
    each occurrence. *)
Definition occurrences1 (words : list string) (k : string) : list nat :=
  filter (fun i => match nth_error words i with
                   | Some w => String.eqb w k
                   | None => false
                   end)
         (seq 0 (List.length words)).

Definition successors1 (words : list string) (k : string) : list value :=
  map (fun i => successor_at words (i + 1)) (occurrences1 words k).

(** Order 2: the indices at which the adjacent pair [(a, b)] occurs, and what
    follows each occurrence. *)
Definition occurrences2 (words : list string) (a b : string) : list nat :=
  filter (fun i => match nth_error words i, nth_error words (i + 1) with
                   | Some x, Some y => (String.eqb x a && String.eqb y b)%bool
                   | _, _ => false
                   end)
         (seq 0 (List.length words)).

Definition successors2 (words : list string) (a b : string) : list value :=
  map (fun i => successor_at words (i + 2)) (occurrences2 words a b).

(** The key of the order-2 table for the pair [(a, b)]. *)
Definition bigram_key (a b : string) : value := VStr (a ++ " " ++ b).

(** A token as the tokenizer produces them: not empty, free of separators. *)
Definition is_token (t : string) : Prop := t <> "" /\ no_delim t.

(** A string free of the space character, on which [key.split(" ")] acts. *)
Definition no_space (s : string) : Prop :=
  string_forallb (fun c => negb (Ascii.eqb c " ")) s = true.

(** The corpus of the examples of both classes. *)
Definition the_cat_in_the_hat : string := "the cat in the hat".

(** ** The random source *)

(** [Math.random()] returns a number in [[0, 1)]. *)
Definition valid_rng (rng : nat -> Q) : Prop :=
  forall n, 0 <= rng n /\ rng n < 1.

(** A value that some key of the table has among its successors. *)
Definition is_successor (chains : Map) (v : value) : Prop :=
  exists k ar, map_get chains k = Some ar /\ In v ar.

(** The number of iterations that the loop guard of each [makeText] admits
    when [out] already holds [len] elements. *)
Definition steps_left1 (numWords : Z) (len : nat) : nat :=
  Z.to_nat (numWords - Z.of_nat len).

Definition steps_left2 (numWords : Z) (len : nat) : nat :=
  Z.to_nat (numWords + 1 - Z.of_nat len).

(** ** Walks *)

(** [walk1 chains key pushed]: the elements that the order-1 loop pushes
    from the state [key] on.  Each pushed key was looked up with success,
    and the next key was read from the array found. *)
Inductive walk1 (chains : Map) : value -> list value -> Prop :=
| walk1_stop (key : value) : walk1 chains key []
| walk1_step (key : value) (ar : list value) (key' : value) (rest : list value) :
    map_get chains key = Some ar ->
    key' = VUndefined \/ In key' ar ->
    walk1 chains key' rest ->
    walk1 chains key (key :: rest).

(** The two parts of a key of the order-2 walk: [let [w1, w2] = key.split(" ")]. *)
Definition key_w1 (k : string) : value := array_get VStr (split_sp "" k) 0.
Definition key_w2 (k : string) : value := array_get VStr (split_sp "" k) 1.

(** [walk2 chains key pushed]: the same for the order-2 loop, which pushes
    the first part of each key and forms the next key from the second part
    and the value read. *)
Inductive walk2 (chains : Map) : value -> list value -> Prop :=
| walk2_stop (key : value) : walk2 chains key []
| walk2_step (k : string) (ar : list value) (nxt : value) (rest : list value) :
    map_get chains (VStr k) = Some ar ->
    nxt = VUndefined \/ In nxt ar ->
    walk2 chains (js_concat (js_concat (key_w2 k) (VStr " ")) nxt) rest ->
    walk2 chains (VStr k) (key_w1 k :: rest).

(** A table in which every array is non-empty and every successor other
    than END is a key. *)
Definition closed (chains : Map) : Prop :=
  forall k ar, map_get chains k = Some ar ->
    ar <> [] /\ forall v, In v ar -> v = VNull \/ In v (map_keys chains).

(** A token of the corpus, as a value. *)
Definition corpus_token (words : list string) (v : value) : Prop :=
  exists w, v = VStr w /\ In w words.

(** ** Inputs of the examples *)

(** A random source whose first number is [q] and whose later numbers are 0. *)
Definition rng_first (q : Q) : nat -> Q :=
  fun n => match n with
           | O => q
           | S _ => 0
           end.

(** A random source that always returns [q]. *)
Definition rng_const (q : Q) : nat -> Q := fun _ => q.

(** ** Further vocabulary *)

(** The tokens one after the other, with nothing in between. *)
Fixpoint flatten (ts : list string) : string :=
  match ts with
  | [] => ""
  | t :: rest => t ++ flatten rest
  end.

(** The text without its separator characters. *)
Fixpoint remove_delims (s : string) : string :=
  match s with
  | EmptyString => ""
  | String c rest =>
      if is_delim c then remove_delims rest else String c (remove_delims rest)
  end.

(** Two tokens that stand next to each other somewhere in the corpus. *)
Definition adjacent (words : list string) (a b : string) : Prop :=
  exists i, nth_error words i = Some a /\ nth_error words (i + 1) = Some b.

(** Every element of the list and the one after it are related by [R]. *)
Fixpoint linked {A : Type} (R : A -> A -> Prop) (l : list A) : Prop :=
  match l with
  | a :: (b :: _) as rest => R a b /\ linked R rest
  | _ => True
  end.

(** The relation [adjacent] on emitted values. *)
Definition adjacent_values (words : list string) (u v : value) : Prop :=
  exists a b, u = VStr a /\ v = VStr b /\ adjacent words a b.

(** The number of successor entries that a table holds. *)
Definition total_entries (m : Map) : nat :=
  list_sum (map (fun p => List.length (snd p)) m).

(** The last token of the corpus. *)
Definition last_word (words : list string) : option string :=
  nth_error words (List.length words - 1).

(** ** The command-line tools *)

(** makeText.js, [generateText(text)]: the argument of [console.log], or
    what the call raises. *)
Module MakeText.

Definition generateText (rng : nat -> Q) (text : string) (fuel : nat)
    : result string :=
  let mm := Markov.constructor text in
  Markov.makeText rng mm default_numWords fuel.

End MakeText.

(** makeTextBigram.js, [generateText(text)]. *)
Module MakeTextBigram.

Definition generateText (rng : nat -> Q) (text : string) (fuel : nat)
    : result string :=
  let mm := Bigram.constructor text in
  Bigram.makeText rng mm default_numWords fuel.

End MakeTextBigram.

(** * Properties *)

(** ** Strings *)

Lemma append_empty_r (s : string) : (s ++ "")%string = s.
Proof. induction s as [|c s IH]; simpl; [reflexivity | now rewrite IH]. Qed.

Lemma append_assoc (a b c : string) : ((a ++ b) ++ c)%string = (a ++ (b ++ c))%string.
Proof. induction a as [|x a IH]; simpl; [reflexivity | now rewrite IH]. Qed.

Lemma string_forallb_app (p : ascii -> bool) (a b : string) :
  string_forallb p (a ++ b)%string = (string_forallb p a && string_forallb p b)%bool.
Proof.
  induction a as [|x a IH]; simpl; [reflexivity|].
  now rewrite IH, andb_assoc.
Qed.

(** ** The tokenizer *)



Lemma tokenize_unfold (text : string) :
  tokenize text = filter nonempty (split_re "" text).
Proof. reflexivity. Qed.

Lemma nonempty_true (t : string) : nonempty t = true <-> t <> "".
Proof.
  unfold nonempty. rewrite negb_true_iff. apply String.eqb_neq.
Qed.

Lemma skip_re_delims (d s : string) :
  all_delims d -> skip_re (d ++ s)%string = skip_re s.
Proof.
  unfold all_delims. induction d as [|c d IH]; simpl; intros H; [reflexivity|].
  apply andb_true_iff in H as [Hc Hd]. rewrite Hc. now apply IH.
Qed.

Lemma split_re_word (t s cur : string) :
  no_delim t -> split_re cur (t ++ s)%string = split_re (cur ++ t)%string s.
Proof.
  unfold no_delim. revert cur.
  induction t as [|c t IH]; simpl; intros cur H.
  - now rewrite append_empty_r.
  - apply andb_true_iff in H as [Hc Ht]. apply negb_true_iff in Hc.
    rewrite Hc, IH by exact Ht. now rewrite append_assoc.
Qed.

Lemma filter_skip_re (s : string) :
  filter nonempty (skip_re s) = tokenize s.
Proof.
  rewrite tokenize_unfold. destruct s as [|c s]; simpl; [reflexivity|].
  destruct (is_delim c); reflexivity.
Qed.

Lemma splits_into_delim (c : ascii) (s : string) (ts : list string) :
  is_delim c = true -> splits_into s ts -> splits_into (String c s) ts.
Proof.
  intros Hc H. inversion H as [d Hd|d t rest ts' Hd Ht Hn Hb Hr]; subst.
  - apply splits_done. unfold all_delims in *. simpl. now rewrite Hc.
  - change (String c (d ++ t ++ rest)%string) with (String c d ++ t ++ rest)%string.
    apply splits_token; auto. unfold all_delims in *. simpl. now rewrite Hc.
Qed.

Lemma split_re_splits (s : string) :
  (forall cur, no_delim cur ->
     splits_into (cur ++ s)%string (filter nonempty (split_re cur s)))
  /\ splits_into s (filter nonempty (skip_re s)).
Proof.
  induction s as [|c s [IHsplit IHskip]].
  - split.
    + intros cur Hcur. simpl. rewrite append_empty_r.
      destruct (nonempty cur) eqn:E.
      * apply nonempty_true in E.
        replace cur with ("" ++ cur ++ "")%string at 1
          by (simpl; apply append_empty_r).
        apply splits_token; try easy. now apply splits_done.
      * apply negb_false_iff, String.eqb_eq in E. subst. now apply splits_done.
    + simpl. now apply splits_done.
  - split.
    + intros cur Hcur. simpl. destruct (is_delim c) eqn:Hc.
      * simpl. destruct (nonempty cur) eqn:E.
        -- apply nonempty_true in E.
           change (cur ++ String c s)%string with ("" ++ cur ++ String c s)%string.
           apply splits_token; try easy. now apply splits_into_delim.
        -- apply negb_false_iff, String.eqb_eq in E. subst. simpl.
           now apply splits_into_delim.
      * specialize (IHsplit (cur ++ String c "")%string).
        rewrite append_assoc in IHsplit. simpl in IHsplit. apply IHsplit.
        unfold no_delim in *. rewrite string_forallb_app, Hcur. simpl.
        now rewrite Hc.
    + simpl. destruct (is_delim c) eqn:Hc.
      * now apply splits_into_delim.
      * apply (IHsplit (String c "")). unfold no_delim. simpl. now rewrite Hc.
Qed.

Lemma tokenize_splits (text : string) : splits_into text (tokenize text).
Proof.
  exact (proj1 (split_re_splits text) "" eq_refl).
Qed.

Lemma splits_into_tokenize (text : string) (ts : list string) :
  splits_into text ts -> tokenize text = ts.
Proof.
  induction 1 as [d Hd|d t rest ts Hd Ht Hn Hb Hr IH].
  - rewrite <- filter_skip_re, <- (append_empty_r d), skip_re_delims by exact Hd.
    reflexivity.
  - rewrite <- filter_skip_re, skip_re_delims by exact Hd.
    destruct t as [|c t]; [contradiction|].
    pose proof Hn as Hn'. unfold no_delim in Hn'. simpl in Hn'.
    apply andb_true_iff in Hn' as [Hc Hn']. apply negb_true_iff in Hc.
    simpl. rewrite Hc, split_re_word by exact Hn'. simpl.
    rewrite <- IH. destruct rest as [|c' rest]; simpl in *.
    + reflexivity.
    + rewrite Hb. simpl. rewrite tokenize_unfold. simpl. rewrite Hb. reflexivity.
Qed.

Lemma splits_into_tokens (text : string) (ts : list string) :
  splits_into text ts -> Forall (fun t => t <> "" /\ no_delim t) ts.
Proof. induction 1; constructor; auto. Qed.

(** ** Values and maps *)

Lemma value_eqb_eq (a b : value) : value_eqb a b = true <-> a = b.
Proof.
  destruct a, b; simpl; split; intros H; try easy.
  - apply String.eqb_eq in H. now subst.
  - injection H as ->. apply String.eqb_refl.
Qed.

Lemma value_eqb_refl (a : value) : value_eqb a a = true.
Proof. now apply value_eqb_eq. Qed.

Lemma value_eqb_neq (a b : value) : value_eqb a b = false <-> a <> b.
Proof.
  rewrite <- not_true_iff_false, value_eqb_eq. tauto.
Qed.

Lemma value_eqb_sym (a b : value) : value_eqb a b = value_eqb b a.
Proof.
  destruct (value_eqb b a) eqn:E.
  - apply value_eqb_eq in E. subst. apply value_eqb_refl.
  - apply value_eqb_neq in E. apply value_eqb_neq. congruence.
Qed.

Lemma map_get_set (m : Map) (k k' : value) (ar : list value) :
  map_get (map_set m k ar) k' =
  if value_eqb k k' then Some ar else map_get m k'.
Proof.
  induction m as [|[k0 ar0] m IH]; simpl.
  - rewrite (value_eqb_sym k' k). reflexivity.
  - destruct (value_eqb k k0) eqn:E0; simpl.
    + apply value_eqb_eq in E0. subst k0.
      rewrite (value_eqb_sym k' k). destruct (value_eqb k k'); reflexivity.
    + rewrite IH. destruct (value_eqb k' k0) eqn:E1; [|reflexivity].
      apply value_eqb_eq in E1. subst k0. now rewrite E0.
Qed.

Lemma map_get_push (m : Map) (k k' x : value) :
  map_get (map_push m k x) k' =
  if value_eqb k k' then option_map (fun ar => ar ++ [x]) (map_get m k')
  else map_get m k'.
Proof.
  induction m as [|[k0 ar0] m IH]; simpl.
  - destruct (value_eqb k k'); reflexivity.
  - destruct (value_eqb k k0) eqn:E0; simpl.
    + apply value_eqb_eq in E0. subst k0.
      rewrite (value_eqb_sym k' k). destruct (value_eqb k k'); reflexivity.
    + rewrite IH. destruct (value_eqb k' k0) eqn:E1; [|reflexivity].
      apply value_eqb_eq in E1. subst k0. now rewrite E0.
Qed.

Lemma map_get_keys (m : Map) (k : value) :
  In k (map_keys m) <-> map_get m k <> None.
Proof.
  induction m as [|[k0 ar0] m IH]; simpl.
  - tauto.
  - destruct (value_eqb k k0) eqn:E.
    + apply value_eqb_eq in E. subst. split; [discriminate | auto].
    + apply value_eqb_neq in E. rewrite <- IH. split; [intros [?|?] | ]; auto.
      congruence.
Qed.

(** ** The build loop *)

Lemma opt_list_some (l ar : list value) :
  opt_list l = Some ar -> l = ar /\ ar <> [].
Proof.
  destruct l; simpl; [discriminate|]. intros [= <-]. split; [reflexivity | discriminate].
Qed.

Lemma build_S (keyf succf : nat -> value) (n : nat) :
  build keyf succf (S n) = build_step keyf succf (build keyf succf n) n.
Proof.
  unfold build. rewrite seq_S, fold_left_app. reflexivity.
Qed.

Lemma observed_S (keyf succf : nat -> value) (n : nat) (k : value) :
  observed keyf succf (S n) k =
  observed keyf succf n k ++ (if value_eqb (keyf n) k then [succf n] else []).
Proof.
  unfold observed. rewrite seq_S, filter_app, map_app. simpl.
  destruct (value_eqb (keyf n) k); reflexivity.
Qed.

Lemma build_get (keyf succf : nat -> value) (n : nat) (k : value) :
  map_get (build keyf succf n) k = opt_list (observed keyf succf n k).
Proof.
  induction n as [|n IH] in k |- *; [reflexivity|].
  rewrite build_S, observed_S. unfold build_step, map_has.
  rewrite (IH (keyf n)).
  destruct (observed keyf succf n (keyf n)) as [|x l] eqn:Ek; simpl.
  - rewrite map_get_set, IH.
    destruct (value_eqb (keyf n) k) eqn:E.
    + apply value_eqb_eq in E. subst k. rewrite Ek. reflexivity.
    + now rewrite app_nil_r.
  - rewrite map_get_push, IH.
    destruct (value_eqb (keyf n) k) eqn:E.
    + apply value_eqb_eq in E. subst k. rewrite Ek. reflexivity.
    + now rewrite app_nil_r.
Qed.

Lemma observed_in (keyf succf : nat -> value) (n : nat) (k x : value) :
  In x (observed keyf succf n k) <->
  exists i, (i < n)%nat /\ keyf i = k /\ succf i = x.
Proof.
  unfold observed. rewrite in_map_iff. split.
  - intros (i & Hx & Hi). apply filter_In in Hi as [Hi Hk].
    apply in_seq in Hi. apply value_eqb_eq in Hk. exists i. repeat split; auto. lia.
  - intros (i & Hi & Hk & Hx). exists i. split; [exact Hx|].
    apply filter_In. split; [apply in_seq; lia | now apply value_eqb_eq].
Qed.

Lemma build_key_iff (keyf succf : nat -> value) (n : nat) (k : value) :
  In k (map_keys (build keyf succf n)) <-> exists i, (i < n)%nat /\ keyf i = k.
Proof.
  rewrite map_get_keys, build_get. split.
  - intros H. destruct (observed keyf succf n k) as [|x l] eqn:E; [easy|].
    assert (Hx : In x (observed keyf succf n k)) by (rewrite E; now left).
    apply observed_in in Hx as (i & Hi & Hk & _). eauto.
  - intros (i & Hi & Hk).
    assert (Hx : In (succf i) (observed keyf succf n k))
      by (apply observed_in; eauto).
    destruct (observed keyf succf n k); [destruct Hx | discriminate].
Qed.

(** ** Array reads *)

Lemma word_at_nat (words : list string) (i : nat) :
  word_at words (Z.of_nat i) =
  match nth_error words i with
  | Some w => VStr w
  | None => VUndefined
  end.
Proof.
  unfold word_at, array_get.
  destruct (Z.of_nat i <? 0)%Z eqn:E; [apply Z.ltb_lt in E; lia|].
  now rewrite Nat2Z.id.
Qed.

Lemma word_at_plus (words : list string) (i d : nat) :
  word_at words (Z.of_nat i + Z.of_nat d) = word_at words (Z.of_nat (i + d)).
Proof. now rewrite Nat2Z.inj_add. Qed.

Lemma next_word_successor (words : list string) (j : nat) :
  Forall (fun w => w <> "") words ->
  js_or (word_at words (Z.of_nat j)) VNull = successor_at words j.
Proof.
  intros Hne. rewrite word_at_nat. unfold successor_at.
  destruct (nth_error words j) as [w|] eqn:E; [|reflexivity].
  unfold js_or. simpl.
  assert (Hw : w <> "").
  { rewrite Forall_forall in Hne. apply Hne. eapply nth_error_In; eauto. }
  apply String.eqb_neq in Hw. now rewrite Hw.
Qed.

(** ** Order-1 chains *)

Lemma makeChains1_build (words : list string) :
  Markov.makeChains words =
  build (fun i => word_at words (Z.of_nat i))
        (fun i => js_or (word_at words (Z.of_nat i + 1)) VNull)
        (List.length words).
Proof. reflexivity. Qed.

Lemma observed1 (words : list string) (k : string) :
  Forall (fun w => w <> "") words ->
  observed (fun i => word_at words (Z.of_nat i))
           (fun i => js_or (word_at words (Z.of_nat i + 1)) VNull)
           (List.length words) (VStr k)
  = successors1 words k.
Proof.
  intros Hne. unfold observed, successors1, occurrences1.
  erewrite filter_ext, map_ext; [reflexivity| |].
  - intros i. simpl. change 1%Z with (Z.of_nat 1).
    rewrite word_at_plus. now apply next_word_successor.
  - intros i. simpl. rewrite word_at_nat.
    destruct (nth_error words i); reflexivity.
Qed.

Lemma makeChains1_get (words : list string) (k : string) :
  Forall (fun w => w <> "") words ->
  map_get (Markov.makeChains words) (VStr k) = opt_list (successors1 words k).
Proof.
  intros Hne. rewrite makeChains1_build, build_get. now rewrite observed1.
Qed.

Lemma makeChains1_keys (words : list string) (v : value) :
  In v (map_keys (Markov.makeChains words)) <->
  exists w, In w words /\ v = VStr w.
Proof.
  rewrite makeChains1_build, build_key_iff. split.
  - intros (i & Hi & Hk). rewrite word_at_nat in Hk.
    destruct (nth_error words i) as [w|] eqn:E.
    + exists w. split; [eapply nth_error_In; eauto | congruence].
    + apply nth_error_None in E. lia.
  - intros (w & Hw & ->). apply In_nth_error in Hw as [i Hi].
    exists i. split; [apply nth_error_Some; congruence|].
    now rewrite word_at_nat, Hi.
Qed.

(** ** Order-2 chains *)

Lemma no_delim_no_space (t : string) : no_delim t -> no_space t.
Proof.
  unfold no_delim, no_space. induction t as [|c t IH]; simpl; [easy|].
  intros H. apply andb_true_iff in H as [Hc Ht]. rewrite IH by exact Ht.
  unfold is_delim in Hc. destruct (Ascii.eqb c " "); [discriminate | reflexivity].
Qed.

Lemma is_token_nonempty (words : list string) :
  Forall is_token words -> Forall (fun w => w <> "") words.
Proof. apply Forall_impl. now intros w [H _]. Qed.

Lemma bigram_inj (x y a b : string) :
  no_space x -> no_space y ->
  (x ++ " " ++ y)%string = (a ++ " " ++ b)%string -> x = a /\ y = b.
Proof.
  unfold no_space. revert a.
  induction x as [|c x IH]; intros a Hx Hy E.
  - destruct a as [|c' a]; simpl in E.
    + injection E as ->. auto.
    + injection E as <- ->. rewrite string_forallb_app in Hy. simpl in Hy.
      rewrite andb_false_r in Hy. discriminate.
  - simpl in Hx. apply andb_true_iff in Hx as [Hc Hx].
    destruct a as [|c' a]; simpl in E.
    + injection E as -> _. discriminate.
    + injection E as <- E. destruct (IH a Hx Hy E) as [-> ->]. auto.
Qed.

Lemma makeChains2_build (words : list string) :
  Bigram.makeChains words =
  build (fun i => js_concat (js_concat (word_at words (Z.of_nat i)) (VStr " "))
                            (word_at words (Z.of_nat i + 1)))
        (fun i => js_or (word_at words (Z.of_nat i + 2)) VNull)
        (List.length words - 1).
Proof.
  unfold Bigram.makeChains, build.
  replace (Z.to_nat (Z.of_nat (List.length words) - 1)) with (List.length words - 1)%nat by lia.
  reflexivity.
Qed.

Lemma bigram_at (words : list string) (i : nat) (x y : string) :
  nth_error words i = Some x -> nth_error words (i + 1) = Some y ->
  js_concat (js_concat (word_at words (Z.of_nat i)) (VStr " "))
            (word_at words (Z.of_nat i + 1)) = bigram_key x y.
Proof.
  intros Hx Hy. change 1%Z with (Z.of_nat 1).
  rewrite word_at_plus, !word_at_nat, Hx, Hy. unfold js_concat, bigram_key. simpl.
  now rewrite append_assoc.
Qed.

Lemma pair_in_range (words : list string) (i : nat) :
  (i < List.length words - 1)%nat ->
  exists x y, nth_error words i = Some x /\ nth_error words (i + 1) = Some y.
Proof.
  intros Hi.
  destruct (nth_error words i) as [x|] eqn:Ex;
    [|apply nth_error_None in Ex; lia].
  destruct (nth_error words (i + 1)) as [y|] eqn:Ey;
    [|apply nth_error_None in Ey; lia].
  eauto.
Qed.

Lemma occurrences2_range (words : list string) (a b : string) :
  occurrences2 words a b =
  filter (fun i => match nth_error words i, nth_error words (i + 1) with
                   | Some x, Some y => (String.eqb x a && String.eqb y b)%bool
                   | _, _ => false
                   end)
         (seq 0 (List.length words - 1)).
Proof.
  unfold occurrences2. destruct (List.length words) as [|n] eqn:En; [reflexivity|].
  replace (S n - 1)%nat with n by lia. rewrite seq_S, filter_app. simpl.
  assert (E : nth_error words (n + 1) = None) by (apply nth_error_None; lia).
  rewrite E. destruct (nth_error words n); now rewrite app_nil_r.
Qed.

Lemma observed2 (words : list string) (a b : string) :
  Forall is_token words ->
  observed (fun i => js_concat (js_concat (word_at words (Z.of_nat i)) (VStr " "))
                               (word_at words (Z.of_nat i + 1)))
           (fun i => js_or (word_at words (Z.of_nat i + 2)) VNull)
           (List.length words - 1) (bigram_key a b)
  = successors2 words a b.
Proof.
  intros Htok. unfold observed, successors2. rewrite occurrences2_range.
  erewrite filter_ext_in, map_ext; [reflexivity| |].
  - intros i. simpl. change 2%Z with (Z.of_nat 2).
    rewrite word_at_plus. apply next_word_successor. now apply is_token_nonempty.
  - intros i Hi. apply in_seq in Hi. simpl in Hi.
    destruct (pair_in_range words i) as (x & y & Hx & Hy); [lia|].
    rewrite (bigram_at _ _ _ _ Hx Hy), Hx, Hy.
    rewrite Forall_forall in Htok.
    assert (Tx : no_space x)
      by (apply no_delim_no_space, Htok; eapply nth_error_In; eauto).
    assert (Ty : no_space y)
      by (apply no_delim_no_space, Htok; eapply nth_error_In; eauto).
    unfold bigram_key. simpl.
    destruct (String.eqb x a && String.eqb y b)%bool eqn:E.
    + apply andb_true_iff in E as [Ea Eb].
      apply String.eqb_eq in Ea, Eb. subst. apply String.eqb_refl.
    + apply String.eqb_neq. intros Heq.
      destruct (bigram_inj x y a b Tx Ty Heq) as [-> ->].
      now rewrite !String.eqb_refl in E.
Qed.

Lemma makeChains2_get (words : list string) (a b : string) :
  Forall is_token words ->
  map_get (Bigram.makeChains words) (bigram_key a b) =
  opt_list (successors2 words a b).
Proof.
  intros Htok. rewrite makeChains2_build, build_get. now rewrite observed2.
Qed.

Lemma makeChains2_keys (words : list string) (v : value) :
  In v (map_keys (Bigram.makeChains words)) <->
  exists i x y, nth_error words i = Some x /\ nth_error words (i + 1) = Some y
                /\ v = bigram_key x y.
Proof.
  rewrite makeChains2_build, build_key_iff. split.
  - intros (i & Hi & Hk).
    destruct (pair_in_range words i Hi) as (x & y & Hx & Hy).
    rewrite (bigram_at _ _ _ _ Hx Hy) in Hk. exists i, x, y. auto.
  - intros (i & x & y & Hx & Hy & ->). exists i. split.
    + assert (i + 1 < List.length words)%nat by (apply nth_error_Some; congruence). lia.
    + now apply bigram_at.
Qed.

(** ** [choice] *)

Lemma array_get_nil {A : Type} (inj : A -> value) (i : Z) :
  array_get inj [] i = VUndefined.
Proof.
  unfold array_get. destruct (i <? 0)%Z; [reflexivity|].
  now destruct (Z.to_nat i).
Qed.

Lemma array_get_cases {A : Type} (inj : A -> value) (ar : list A) (i : Z) :
  array_get inj ar i = VUndefined \/ exists x, In x ar /\ array_get inj ar i = inj x.
Proof.
  unfold array_get. destruct (i <? 0)%Z; [now left|].
  destruct (nth_error ar (Z.to_nat i)) as [x|] eqn:E; [right | now left].
  exists x. split; [eapply nth_error_In; eauto | reflexivity].
Qed.

Lemma choice_never_times_out (r : Q) (ar : option (list value)) :
  choice r ar <> Timeout.
Proof. destruct ar; discriminate. Qed.

Lemma choice_return (r : Q) (ar : option (list value)) (v : value) :
  choice r ar = Return v ->
  exists l, ar = Some l /\ (v = VUndefined \/ In v l).
Proof.
  destruct ar as [l|]; [|discriminate]. unfold choice. intros H.
  exists l. split; [reflexivity|].
  assert (E : v = array_get (fun v => v) l
                    (Qfloor (r * inject_Z (Z.of_nat (List.length l)))))
    by congruence.
  rewrite E.
  destruct (array_get_cases (fun v => v) l
              (Qfloor (r * inject_Z (Z.of_nat (List.length l)))))
    as [E'|(x & Hx & E')]; rewrite E'; auto.
Qed.

Lemma random_index (r : Q) (n : nat) :
  0 <= r -> r < 1 -> (0 < n)%nat ->
  (0 <= Qfloor (r * inject_Z (Z.of_nat n)) < Z.of_nat n)%Z.
Proof.
  intros H0 H1 Hn.
  assert (Hpos : 0 < inject_Z (Z.of_nat n)).
  { change 0 with (inject_Z 0). rewrite <- Zlt_Qlt. lia. }
  split.
  - change 0%Z with (Qfloor 0). apply Qfloor_resp_le.
    apply Qmult_le_0_compat; [exact H0 | now apply Qlt_le_weak].
  - rewrite Zlt_Qlt. eapply Qle_lt_trans; [apply Qfloor_le|].
    rewrite <- (Qmult_1_l (inject_Z (Z.of_nat n))) at 2.
    now apply Qmult_lt_compat_r.
Qed.

Lemma choice_in (r : Q) (ar : list value) :
  0 <= r -> r < 1 -> ar <> [] ->
  exists v, choice r (Some ar) = Return v /\ In v ar.
Proof.
  intros H0 H1 Hne.
  assert (Hlen : (0 < List.length ar)%nat) by (destruct ar; simpl; [easy | lia]).
  pose proof (random_index r _ H0 H1 Hlen) as [Hlo Hhi].
  unfold choice, array_get.
  set (i := Qfloor (r * inject_Z (Z.of_nat (List.length ar)))) in *.
  destruct (i <? 0)%Z eqn:E; [apply Z.ltb_lt in E; lia|].
  destruct (nth_error ar (Z.to_nat i)) as [x|] eqn:Ex.
  - exists x. split; [reflexivity | eapply nth_error_In; eauto].
  - apply nth_error_None in Ex. lia.
Qed.

(** ** Termination of the walks *)

Lemma loop1_terminates (rng : nat -> Q) (chains : Map) (numWords : Z) (fuel : nat) :
  forall out key calls,
    (steps_left1 numWords (List.length out) <= fuel)%nat ->
    Markov.makeText_loop rng fuel chains numWords out key calls <> Timeout.
Proof.
  unfold steps_left1.
  induction fuel as [|fuel IH]; intros out key calls Hfuel; simpl.
  - destruct (Z.of_nat (List.length out) <? numWords)%Z eqn:E; simpl; [|discriminate].
    apply Z.ltb_lt in E. lia.
  - destruct ((Z.of_nat (List.length out) <? numWords)%Z && negb (is_null key))%bool eqn:E;
      [|discriminate].
    apply andb_true_iff in E as [E _]. apply Z.ltb_lt in E.
    destruct (choice (rng calls) (map_get chains key)) as [key'|e|] eqn:Ec;
      [|discriminate|now apply choice_never_times_out in Ec].
    apply IH. rewrite length_app. simpl. lia.
Qed.

Lemma loop2_terminates (rng : nat -> Q) (chains : Map) (numWords : Z) (fuel : nat) :
  forall out key calls,
    (steps_left2 numWords (List.length out) <= fuel)%nat ->
    Bigram.makeText_loop rng fuel chains numWords out key calls <> Timeout.
Proof.
  unfold steps_left2.
  induction fuel as [|fuel IH]; intros out key calls Hfuel; simpl.
  - destruct (Z.of_nat (List.length out) <=? numWords)%Z eqn:E; simpl; [|discriminate].
    apply Z.leb_le in E. lia.
  - destruct ((Z.of_nat (List.length out) <=? numWords)%Z && negb (is_null key))%bool eqn:E;
      [|discriminate].
    apply andb_true_iff in E as [E _]. apply Z.leb_le in E.
    destruct key as [| |k]; try discriminate.
    destruct (choice (rng calls) (map_get chains (VStr k))) as [key'|e|] eqn:Ec;
      [|discriminate|now apply choice_never_times_out in Ec].
    apply IH. rewrite length_app. simpl. lia.
Qed.

Lemma loop1_fuel (rng : nat -> Q) (chains : Map) (numWords : Z) (fuel : nat) :
  forall out key calls,
    Markov.makeText_loop rng fuel chains numWords out key calls <> Timeout ->
    forall fuel', (fuel <= fuel')%nat ->
      Markov.makeText_loop rng fuel' chains numWords out key calls =
      Markov.makeText_loop rng fuel chains numWords out key calls.
Proof.
  induction fuel as [|fuel IH]; intros out key calls Hr fuel' Hle;
    simpl in Hr |- *.
  - destruct fuel'; simpl;
      destruct ((Z.of_nat (List.length out) <? numWords)%Z && negb (is_null key))%bool;
      try reflexivity; contradiction.
  - destruct fuel' as [|fuel']; [lia|]. simpl.
    destruct ((Z.of_nat (List.length out) <? numWords)%Z && negb (is_null key))%bool;
      [|reflexivity].
    destruct (choice (rng calls) (map_get chains key)); try reflexivity.
    apply IH; [exact Hr | lia].
Qed.

Lemma loop2_fuel (rng : nat -> Q) (chains : Map) (numWords : Z) (fuel : nat) :
  forall out key calls,
    Bigram.makeText_loop rng fuel chains numWords out key calls <> Timeout ->
    forall fuel', (fuel <= fuel')%nat ->
      Bigram.makeText_loop rng fuel' chains numWords out key calls =
      Bigram.makeText_loop rng fuel chains numWords out key calls.
Proof.
  induction fuel as [|fuel IH]; intros out key calls Hr fuel' Hle;
    simpl in Hr |- *.
  - destruct fuel'; simpl;
      destruct ((Z.of_nat (List.length out) <=? numWords)%Z && negb (is_null key))%bool;
      try reflexivity; contradiction.
  - destruct fuel' as [|fuel']; [lia|]. simpl.
    destruct ((Z.of_nat (List.length out) <=? numWords)%Z && negb (is_null key))%bool;
      [|reflexivity].
    destruct key as [| |k]; try reflexivity.
    destruct (choice (rng calls) (map_get chains (VStr k))); try reflexivity.
    apply IH; [exact Hr | lia].
Qed.

(** ** What the walks push *)

Lemma loop1_walk (rng : nat -> Q) (chains : Map) (numWords : Z) (fuel : nat) :
  forall out key calls out',
    Markov.makeText_loop rng fuel chains numWords out key calls = Return out' ->
    exists pushed,
      out' = out ++ pushed
      /\ (List.length pushed <= steps_left1 numWords (List.length out))%nat
      /\ walk1 chains key pushed.
Proof.
  unfold steps_left1.
  induction fuel as [|fuel IH]; intros out key calls out' H; simpl in H.
  - destruct ((Z.of_nat (List.length out) <? numWords)%Z && negb (is_null key))%bool;
      [discriminate|].
    injection H as <-. exists []. rewrite app_nil_r. simpl.
    repeat split; [lia | constructor].
  - destruct ((Z.of_nat (List.length out) <? numWords)%Z && negb (is_null key))%bool eqn:E.
    + apply andb_true_iff in E as [E _]. apply Z.ltb_lt in E.
      destruct (choice (rng calls) (map_get chains key)) as [key'|e|] eqn:Ec;
        try discriminate.
      apply choice_return in Ec as (ar & Hget & Hin).
      apply IH in H as (pushed & -> & Hlen & Hwalk).
      exists (key :: pushed). rewrite <- app_assoc. simpl.
      repeat split.
      * rewrite length_app in Hlen. simpl in Hlen. lia.
      * econstructor; eauto.
    + injection H as <-. exists []. rewrite app_nil_r. simpl.
      repeat split; [lia | constructor].
Qed.

Lemma loop2_walk (rng : nat -> Q) (chains : Map) (numWords : Z) (fuel : nat) :
  forall out key calls out',
    Bigram.makeText_loop rng fuel chains numWords out key calls = Return out' ->
    exists pushed,
      out' = out ++ pushed
      /\ (List.length pushed <= steps_left2 numWords (List.length out))%nat
      /\ walk2 chains key pushed.
Proof.
  unfold steps_left2.
  induction fuel as [|fuel IH]; intros out key calls out' H; simpl in H.
  - destruct ((Z.of_nat (List.length out) <=? numWords)%Z && negb (is_null key))%bool;
      [discriminate|].
    injection H as <-. exists []. rewrite app_nil_r. simpl.
    repeat split; [lia | constructor].
  - destruct ((Z.of_nat (List.length out) <=? numWords)%Z && negb (is_null key))%bool eqn:E.
    + apply andb_true_iff in E as [E _]. apply Z.leb_le in E.
      destruct key as [| |k]; try discriminate.
      destruct (choice (rng calls) (map_get chains (VStr k))) as [nxt|e|] eqn:Ec;
        try discriminate.
      apply choice_return in Ec as (ar & Hget & Hin).
      apply IH in H as (pushed & -> & Hlen & Hwalk).
      exists (key_w1 k :: pushed). rewrite <- app_assoc. simpl.
      repeat split.
      * rewrite length_app in Hlen. simpl in Hlen. lia.
      * econstructor; eauto.
    + injection H as <-. exists []. rewrite app_nil_r. simpl.
      repeat split; [lia | constructor].
Qed.

(** Order 1: every pushed element is a key, and every one after the first
    was read from an array of the table. *)
Lemma walk1_keys (chains : Map) (key : value) (pushed : list value) :
  walk1 chains key pushed ->
  Forall (fun v => In v (map_keys chains)) pushed.
Proof.
  induction 1 as [|key ar key' rest Hget Hin Hw IH]; constructor; auto.
  apply map_get_keys. congruence.
Qed.

Lemma walk1_successors (chains : Map) (key : value) (pushed : list value) :
  ~ In VUndefined (map_keys chains) ->
  walk1 chains key pushed ->
  match pushed with
  | [] => True
  | first :: rest => first = key /\ Forall (is_successor chains) rest
  end.
Proof.
  intros Hundef. induction 1 as [|key ar key' rest Hget Hin Hw IH]; [exact I|].
  split; [reflexivity|].
  destruct rest as [|x rest]; [constructor|].
  destruct IH as [-> IH]. constructor; [|exact IH].
  pose proof (walk1_keys _ _ _ Hw) as Hk. inversion Hk as [|? ? Hkey _]; subst.
  destruct Hin as [->|Hin]; [contradiction|].
  exists key, ar. auto.
Qed.

(** Order 2: every pushed element is the first part of a key of the table. *)
Lemma walk2_keys (chains : Map) (key : value) (pushed : list value) :
  walk2 chains key pushed ->
  Forall (fun v => exists k, In (VStr k) (map_keys chains) /\ v = key_w1 k) pushed.
Proof.
  induction 1 as [|k ar nxt rest Hget Hin Hw IH]; constructor; auto.
  exists k. split; [|reflexivity]. apply map_get_keys. congruence.
Qed.

(** ** Tokens of a text *)

Lemma tokenize_tokens (text : string) : Forall is_token (tokenize text).
Proof. exact (splits_into_tokens _ _ (tokenize_splits text)). Qed.

Lemma split_sp_word (x s cur : string) :
  no_space x -> split_sp cur (x ++ s)%string = split_sp (cur ++ x)%string s.
Proof.
  unfold no_space. revert cur.
  induction x as [|c x IH]; simpl; intros cur H.
  - now rewrite append_empty_r.
  - apply andb_true_iff in H as [Hc Hx]. apply negb_true_iff in Hc.
    rewrite Hc, IH by exact Hx. now rewrite append_assoc.
Qed.

Lemma split_sp_bigram (x y : string) :
  no_space x -> no_space y -> split_sp "" (x ++ " " ++ y)%string = [x; y].
Proof.
  intros Hx Hy. rewrite split_sp_word by exact Hx. simpl.
  rewrite <- (append_empty_r y) at 1. rewrite split_sp_word by exact Hy.
  reflexivity.
Qed.

Lemma word_is_token (words : list string) (i : nat) (w : string) :
  Forall is_token words -> nth_error words i = Some w -> no_space w.
Proof.
  intros Htok Hw. rewrite Forall_forall in Htok.
  apply no_delim_no_space, Htok. eapply nth_error_In; eauto.
Qed.

(** ** The order-1 table is closed *)

Lemma makeChains1_closed (words : list string) :
  Forall (fun w => w <> "") words -> closed (Markov.makeChains words).
Proof.
  intros Hne k ar Hget.
  rewrite makeChains1_build, build_get in Hget.
  apply opt_list_some in Hget as [<- Hnil]. split; [exact Hnil|].
  intros v Hv. apply observed_in in Hv as (i & Hi & Hk & Hs).
  change 1%Z with (Z.of_nat 1) in Hs.
  rewrite word_at_plus, next_word_successor in Hs by exact Hne.
  unfold successor_at in Hs.
  destruct (nth_error words (i + 1)) as [w|] eqn:E; [right | now left].
  subst v. apply makeChains1_keys. exists w. split; [|reflexivity].
  eapply nth_error_In; eauto.
Qed.

Lemma loop1_safe (rng : nat -> Q) (chains : Map) (numWords : Z) (fuel : nat) :
  valid_rng rng -> closed chains ->
  forall out key calls,
    (steps_left1 numWords (List.length out) <= fuel)%nat ->
    key = VNull \/ In key (map_keys chains) ->
    exists out', Markov.makeText_loop rng fuel chains numWords out key calls = Return out'.
Proof.
  unfold steps_left1. intros Hrng Hclosed.
  induction fuel as [|fuel IH]; intros out key calls Hfuel Hkey; simpl.
  - destruct (Z.of_nat (List.length out) <? numWords)%Z eqn:E; simpl; [|eauto].
    apply Z.ltb_lt in E. lia.
  - destruct ((Z.of_nat (List.length out) <? numWords)%Z && negb (is_null key))%bool eqn:E;
      [|eauto].
    apply andb_true_iff in E as [E Hnn]. apply Z.ltb_lt in E.
    destruct Hkey as [->|Hkey]; [discriminate|].
    apply map_get_keys in Hkey.
    destruct (map_get chains key) as [ar|] eqn:Hget; [|contradiction].
    destruct (Hclosed _ _ Hget) as [Hnil Hsucc].
    destruct (Hrng calls) as [H0 H1].
    destruct (choice_in (rng calls) ar H0 H1 Hnil) as (v & -> & Hv).
    apply IH; [rewrite length_app; simpl; lia | auto].
Qed.

(** ** Empty tables *)

Lemma empty_table_raises1 (rng : nat -> Q) (m : Markov.MarkovMachine)
    (numWords : Z) (fuel : nat) :
  Markov.chains m = [] -> (1 <= numWords)%Z ->
  Markov.makeText rng m numWords (S fuel) = Throw TypeError.
Proof.
  intros Hm Hn. unfold Markov.makeText, Markov.makeText_out, choice.
  rewrite Hm. simpl map_keys. rewrite array_get_nil. simpl.
  destruct (0 <? numWords)%Z eqn:E; [reflexivity|].
  apply Z.ltb_ge in E. lia.
Qed.

Lemma empty_table_raises2 (rng : nat -> Q) (m : Bigram.MarkovMachine)
    (numWords : Z) (fuel : nat) :
  Bigram.chains m = [] -> (0 <= numWords)%Z ->
  Bigram.makeText rng m numWords (S fuel) = Throw TypeError.
Proof.
  intros Hm Hn. unfold Bigram.makeText, Bigram.makeText_out, choice.
  rewrite Hm. simpl map_keys. rewrite array_get_nil. simpl.
  destruct (0 <=? numWords)%Z eqn:E; [reflexivity|].
  apply Z.leb_gt in E. lia.
Qed.

Lemma empty_table_no_iteration1 (rng : nat -> Q) (m : Markov.MarkovMachine)
    (numWords : Z) (fuel : nat) :
  Markov.chains m = [] -> (numWords <= 0)%Z ->
  Markov.makeText rng m numWords fuel = Return "".
Proof.
  intros Hm Hn. unfold Markov.makeText, Markov.makeText_out, choice.
  rewrite Hm. simpl map_keys. rewrite array_get_nil.
  destruct fuel; simpl; destruct (0 <? numWords)%Z eqn:E; try reflexivity;
    apply Z.ltb_lt in E; lia.
Qed.

Lemma empty_table_no_iteration2 (rng : nat -> Q) (m : Bigram.MarkovMachine)
    (numWords : Z) (fuel : nat) :
  Bigram.chains m = [] -> (numWords < 0)%Z ->
  Bigram.makeText rng m numWords fuel = Return "".
Proof.
  intros Hm Hn. unfold Bigram.makeText, Bigram.makeText_out, choice.
  rewrite Hm. simpl map_keys. rewrite array_get_nil.
  destruct fuel; simpl; destruct (0 <=? numWords)%Z eqn:E; try reflexivity;
    apply Z.leb_le in E; lia.
Qed.

(** ** The claims on the tokenizer *)

(** C7: for every input string, [tokenize] splits on the runs of space,
    carriage return and newline, drops the empty pieces and changes nothing
    else: the text is separator runs interleaved with the tokens, each token
    unchanged, non-empty, separator-free and ending at a boundary.  The text
    determines the token sequence: any sequence that splits the text in this
    way is the one [tokenize] returns. *)
Theorem tokenize_splits_on_separator_runs (text : string) :
  splits_into text (tokenize text)
  /\ (forall ts, splits_into text ts -> ts = tokenize text).
Proof.
  split; [apply tokenize_splits|].
  intros ts H. symmetry. now apply splits_into_tokenize.
Qed.

Lemma tokenize_splits_on_separator_runs_witness :
  splits_into the_cat_in_the_hat ["the"; "cat"; "in"; "the"; "hat"]
  /\ ["the"; "cat"; "in"; "the"; "hat"] = tokenize the_cat_in_the_hat.
Proof.
  assert (H : splits_into the_cat_in_the_hat ["the"; "cat"; "in"; "the"; "hat"])
    by exact (proj1 (tokenize_splits_on_separator_runs the_cat_in_the_hat)).
  split; [exact H|].
  exact (proj2 (tokenize_splits_on_separator_runs the_cat_in_the_hat) _ H).
Defined.

(** C8, as stated, fails: the text ["a<TAB>b"] is one token, and it contains
    the white space character TAB. *)
Lemma token_may_contain_tab :
  tokenize text_with_tab = [text_with_tab]
  /\ ~ no_whitespace text_with_tab
  /\ ~ (forall text t, In t (tokenize text) -> t <> "" /\ no_whitespace t).
Proof.
  split; [reflexivity|]. split; [discriminate|].
  intros H. destruct (H text_with_tab text_with_tab) as [_ Hws].
  - left. reflexivity.
  - discriminate Hws.
Qed.

(** C8, amended: for every input text, every token produced by the tokenizer
    is a non-empty string that contains no space, carriage return or newline
    character. *)
Theorem tokens_nonempty_and_separator_free (text t : string) :
  In t (tokenize text) -> t <> "" /\ no_delim t.
Proof.
  intros Hin. pose proof (tokenize_tokens text) as H.
  rewrite Forall_forall in H. exact (H t Hin).
Qed.

Lemma tokens_nonempty_and_separator_free_witness :
  In "cat" (tokenize the_cat_in_the_hat) /\ "cat" <> "" /\ no_delim "cat".
Proof.
  assert (Hin : In "cat" (tokenize the_cat_in_the_hat))
    by (vm_compute; right; left; reflexivity).
  split; [exact Hin|].
  exact (tokens_nonempty_and_separator_free the_cat_in_the_hat "cat" Hin).
Defined.

(** ** The claims on the chain tables *)

(** C5: for every token sequence, the order-1 table holds under each token
    [k] the successors of the occurrences of [k], in index order, where the
    successor of index [i] is [tokens[i+1]] or END after the last token; its
    keys are the tokens that occur.  A single token gives the one key mapped
    to [[END]], no token gives the empty table. *)
Theorem makeChains_order1_records_successors (words : list string) :
  Forall (fun w => w <> "") words ->
  (forall k, map_get (Markov.makeChains words) (VStr k) =
             opt_list (successors1 words k))
  /\ (forall v, In v (map_keys (Markov.makeChains words)) <->
                exists w, In w words /\ v = VStr w)
  /\ (forall w, words = [w] -> Markov.makeChains words = [(VStr w, [VNull])])
  /\ (words = [] -> Markov.makeChains words = []).
Proof.
  intros Hne. repeat split.
  - intros k. now apply makeChains1_get.
  - now apply makeChains1_keys.
  - now apply makeChains1_keys.
  - intros w ->. reflexivity.
  - intros ->. reflexivity.
Qed.

Lemma makeChains_order1_records_successors_witness :
  Forall (fun w => w <> "") ["the"; "cat"; "in"; "the"; "hat"]
  /\ map_get (Markov.makeChains ["the"; "cat"; "in"; "the"; "hat"]) (VStr "the")
     = Some [VStr "cat"; VStr "hat"]
  /\ map_get (Markov.makeChains ["the"; "cat"; "in"; "the"; "hat"]) (VStr "hat")
     = Some [VNull].
Proof.
  assert (H : Forall (fun w => w <> "") ["the"; "cat"; "in"; "the"; "hat"])
    by (repeat constructor; discriminate).
  split; [exact H|]. split.
  - exact (proj1 (makeChains_order1_records_successors _ H) "the").
  - exact (proj1 (makeChains_order1_records_successors _ H) "hat").
Defined.

Lemma makeChains2_short (words : list string) :
  (List.length words < 2)%nat -> Bigram.makeChains words = [].
Proof.
  intros H. unfold Bigram.makeChains.
  replace (Z.to_nat (Z.of_nat (List.length words) - 1)) with O by lia.
  reflexivity.
Qed.

(** C6: for every token sequence, the order-2 table holds under the key of
    each adjacent pair [(a, b)] the successors of the occurrences of the
    pair, in index order, where the successor of index [i] is [tokens[i+2]]
    or END when absent; its keys are the adjacent pairs.  Fewer than two
    tokens give the empty table, and the keys of two consecutive indices
    share a token. *)
Theorem makeChains_order2_records_successors (words : list string) :
  Forall is_token words ->
  (forall a b, map_get (Bigram.makeChains words) (bigram_key a b) =
               opt_list (successors2 words a b))
  /\ (forall v, In v (map_keys (Bigram.makeChains words)) <->
                exists i a b, nth_error words i = Some a
                              /\ nth_error words (i + 1) = Some b
                              /\ v = bigram_key a b)
  /\ ((List.length words < 2)%nat -> Bigram.makeChains words = [])
  /\ (forall i a b c,
        nth_error words i = Some a -> nth_error words (i + 1) = Some b ->
        nth_error words (i + 2) = Some c ->
        In (bigram_key a b) (map_keys (Bigram.makeChains words))
        /\ In (bigram_key b c) (map_keys (Bigram.makeChains words))).
Proof.
  intros Htok. split; [|split; [|split]].
  - intros a b. now apply makeChains2_get.
  - apply makeChains2_keys.
  - apply makeChains2_short.
  - intros i a b c Ha Hb Hc. split; apply makeChains2_keys.
    + exists i, a, b. auto.
    + exists (i + 1)%nat, b, c. replace (i + 1 + 1)%nat with (i + 2)%nat by lia. auto.
Qed.

Lemma makeChains_order2_records_successors_witness :
  Forall is_token ["the"; "cat"; "in"; "the"; "hat"]
  /\ map_get (Bigram.makeChains ["the"; "cat"; "in"; "the"; "hat"])
             (bigram_key "the" "hat") = Some [VNull]
  /\ map_get (Bigram.makeChains ["the"; "cat"; "in"; "the"; "hat"])
             (bigram_key "the" "cat") = Some [VStr "in"].
Proof.
  assert (H : Forall is_token ["the"; "cat"; "in"; "the"; "hat"])
    by (repeat constructor; discriminate).
  split; [exact H|]. split.
  - exact (proj1 (makeChains_order2_records_successors _ H) "the" "hat").
  - exact (proj1 (makeChains_order2_records_successors _ H) "the" "cat").
Defined.

(** ** What a generated text is made of *)

Lemma result_map_timeout {A B : Type} (f : A -> B) (r : result A) :
  result_map f r <> Timeout <-> r <> Timeout.
Proof. destruct r; simpl; split; intros H; congruence. Qed.

Lemma makeText1_output (rng : nat -> Q) (text : string) (numWords : Z)
    (fuel : nat) (out : list value) :
  Markov.makeText_out rng (Markov.constructor text) numWords fuel = Return out ->
  (List.length out <= steps_left1 numWords 0)%nat
  /\ Forall (corpus_token (tokenize text)) out
  /\ match out with
     | [] => True
     | first :: rest =>
         In first (map_keys (Markov.chains (Markov.constructor text)))
         /\ Forall (is_successor (Markov.chains (Markov.constructor text))) rest
     end.
Proof.
  unfold Markov.makeText_out.
  destruct (choice (rng 0%nat) _) as [key| |]; try discriminate.
  intros H. apply loop1_walk in H as (pushed & -> & Hlen & Hwalk).
  simpl in *. pose proof (walk1_keys _ _ _ Hwalk) as Hkeys.
  split; [exact Hlen|]. split.
  - eapply Forall_impl; [|exact Hkeys]. intros v Hv.
    apply makeChains1_keys in Hv as (w & Hw & ->). exists w. auto.
  - assert (Hundef : ~ In VUndefined (map_keys (Markov.makeChains (tokenize text)))).
    { intros Hu. apply makeChains1_keys in Hu as (w & _ & Hw). discriminate. }
    pose proof (walk1_successors _ _ _ Hundef Hwalk) as Hs.
    destruct pushed as [|first rest]; [exact I|].
    destruct Hs as [_ Hs]. split; [|exact Hs].
    now inversion Hkeys.
Qed.

Lemma makeText2_output (rng : nat -> Q) (text : string) (numWords : Z)
    (fuel : nat) (out : list value) :
  Bigram.makeText_out rng (Bigram.constructor text) numWords fuel = Return out ->
  (List.length out <= steps_left2 numWords 0)%nat
  /\ Forall (corpus_token (tokenize text)) out.
Proof.
  unfold Bigram.makeText_out.
  destruct (choice (rng 0%nat) _) as [key| |]; try discriminate.
  intros H. apply loop2_walk in H as (pushed & -> & Hlen & Hwalk).
  change ([] ++ pushed) with pushed. split; [exact Hlen|].
  eapply Forall_impl; [|exact (walk2_keys _ _ _ Hwalk)].
  intros v (k & Hk & ->).
  apply makeChains2_keys in Hk as (i & x & y & Hx & Hy & Hk).
  assert (Ek : k = (x ++ " " ++ y)%string) by (unfold bigram_key in Hk; congruence).
  subst k. unfold key_w1.
  pose proof (tokenize_tokens text) as Htok.
  rewrite split_sp_bigram by (eapply word_is_token; eauto).
  exists x. split; [reflexivity | eapply nth_error_In; eauto].
Qed.

(** ** The claims on the generator *)

(** C1: on a text whose table is empty, both generators raise a TypeError
    with the default bound instead of returning the empty string: the start
    key is [undefined], which passes the guard [key !== null]. *)
Theorem makeText_on_empty_table_raises (rng : nat -> Q) (fuel : nat) :
  Markov.chains (Markov.constructor "") = []
  /\ Markov.makeText rng (Markov.constructor "") default_numWords (S fuel)
     = Throw TypeError
  /\ Bigram.chains (Bigram.constructor "hello") = []
  /\ Bigram.makeText rng (Bigram.constructor "hello") default_numWords (S fuel)
     = Throw TypeError.
Proof.
  repeat split.
  - now apply empty_table_raises1.
  - now apply empty_table_raises2.
Qed.

(** C2: on the corpus "the cat in the hat" the order-2 walk that starts at
    the key "the hat" does not stop at the END sentinel: the next key is the
    string "hat null", the loop pushes "hat" and the lookup of that key
    raises a TypeError.  Only with [numWords = 0] does the call return
    "the". *)
Theorem bigram_walk_continues_past_end (fuel : nat) :
  let m := Bigram.constructor the_cat_in_the_hat in
  Bigram.chains m =
    [(VStr "the cat", [VStr "in"]); (VStr "cat in", [VStr "the"]);
     (VStr "in the", [VStr "hat"]); (VStr "the hat", [VNull])]
  /\ choice (rng_first (3 # 4) 0%nat) (Some (map_keys (Bigram.chains m)))
     = Return (VStr "the hat")
  /\ Bigram.makeText (rng_first (3 # 4)) m default_numWords (S (S fuel))
     = Throw TypeError
  /\ Bigram.makeText (rng_first (3 # 4)) m 0 (S fuel) = Return "the".
Proof.
  intros m. subst m. split; [|split; [|split]]; try (vm_compute; reflexivity).
  destruct fuel; vm_compute; reflexivity.
Qed.

(** C3: with [numWords = 1] the order-2 generator emits two tokens where the
    order-1 generator emits one, on the same corpus and random source; with
    the default bound it emits 101. *)
Theorem bigram_emits_one_more_than_numWords :
  Bigram.makeText_out (rng_const 0) (Bigram.constructor "a a a") 1 2
    = Return [VStr "a"; VStr "a"]
  /\ Markov.makeText_out (rng_const 0) (Markov.constructor "a a a") 1 2
    = Return [VStr "a"]
  /\ result_map (@List.length value)
       (Bigram.makeText_out (rng_const 0) (Bigram.constructor "a a a")
          default_numWords 101)
    = Return 101%nat.
Proof.
  split; [|split]; vm_compute; reflexivity.
Qed.

Lemma map_get_in (m : Map) (k : value) (ar : list value) :
  map_get m k = Some ar -> In ar (map snd m).
Proof.
  induction m as [|[k0 ar0] m IH]; simpl; [discriminate|].
  destruct (value_eqb k k0); [intros [= ->]; now left | auto].
Qed.

(** C4: both loops halt.  The order-1 loop runs at most [numWords]
    iterations and the order-2 loop at most [numWords + 1]: with that much
    fuel or more, the call finishes, by returning or by raising, and more
    fuel does not change its outcome. *)
Theorem makeText_terminates (rng : nat -> Q) (m1 : Markov.MarkovMachine)
    (m2 : Bigram.MarkovMachine) (numWords : Z) (fuel : nat) :
  (steps_left2 numWords 0 <= fuel)%nat ->
  (Markov.makeText rng m1 numWords fuel <> Timeout
   /\ Markov.makeText rng m1 numWords fuel
      = Markov.makeText rng m1 numWords (steps_left1 numWords 0))
  /\ (Bigram.makeText rng m2 numWords fuel <> Timeout
      /\ Bigram.makeText rng m2 numWords fuel
         = Bigram.makeText rng m2 numWords (steps_left2 numWords 0)).
Proof.
  intros Hfuel.
  assert (H1 : (steps_left1 numWords 0 <= fuel)%nat)
    by (unfold steps_left1, steps_left2 in *; lia).
  unfold Markov.makeText, Bigram.makeText, Markov.makeText_out, Bigram.makeText_out.
  split.
  - destruct (choice (rng 0%nat) _) as [key| |] eqn:Ec; simpl;
      [|split; congruence|now apply choice_never_times_out in Ec].
    pose proof (loop1_terminates rng (Markov.chains m1) numWords
                  (steps_left1 numWords 0) [] key 1 (le_n _)) as Hb.
    rewrite (loop1_fuel rng _ _ _ _ _ _ Hb fuel H1).
    split; [now apply result_map_timeout | reflexivity].
  - destruct (choice (rng 0%nat) _) as [key| |] eqn:Ec; simpl;
      [|split; congruence|now apply choice_never_times_out in Ec].
    pose proof (loop2_terminates rng (Bigram.chains m2) numWords
                  (steps_left2 numWords 0) [] key 1 (le_n _)) as Hb.
    rewrite (loop2_fuel rng _ _ _ _ _ _ Hb fuel Hfuel).
    split; [now apply result_map_timeout | reflexivity].
Qed.

Lemma makeText_terminates_witness :
  (steps_left2 default_numWords 0 <= 101)%nat
  /\ Markov.makeText (rng_const (1 # 2)) (Markov.constructor the_cat_in_the_hat)
       default_numWords 101 <> Timeout
  /\ Bigram.makeText (rng_const (1 # 2)) (Bigram.constructor the_cat_in_the_hat)
       default_numWords 101 <> Timeout.
Proof.
  assert (H : (steps_left2 default_numWords 0 <= 101)%nat)
    by (vm_compute; apply le_n).
  split; [exact H|].
  pose proof (makeText_terminates (rng_const (1 # 2))
                (Markov.constructor the_cat_in_the_hat)
                (Bigram.constructor the_cat_in_the_hat)
                default_numWords 101 H) as [[T1 _] [T2 _]].
  split; [exact T1 | exact T2].
Defined.

(** C9: the order-2 generator can emit a token that is neither part of the
    start key nor a successor of any key.  On the corpus "z null y z" the
    walk from "y z" samples END, goes on with the key "z null", and the
    output "y z null" ends with the token "null", which no key of the table
    has as a successor. *)
Theorem bigram_emits_rendered_end_sentinel :
  let m := Bigram.constructor "z null y z" in
  Bigram.chains m =
    [(VStr "z null", [VStr "y"]); (VStr "null y", [VStr "z"]);
     (VStr "y z", [VNull])]
  /\ choice (rng_first (2 # 3) 0%nat) (Some (map_keys (Bigram.chains m)))
     = Return (VStr "y z")
  /\ Bigram.makeText_out (rng_first (2 # 3)) m 2 3
     = Return [VStr "y"; VStr "z"; VStr "null"]
  /\ Bigram.makeText (rng_first (2 # 3)) m 2 3 = Return "y z null"
  /\ ~ is_successor (Bigram.chains m) (VStr "null").
Proof.
  intros m. subst m.
  split; [|split; [|split; [|split]]]; try (vm_compute; reflexivity).
  intros (k & ar & Hget & Hin). apply map_get_in in Hget.
  vm_compute in Hget.
  destruct Hget as [<-|[<-|[<-|[]]]]; simpl in Hin;
    destruct Hin as [Hin|[]]; discriminate.
Qed.

(** C10: in the order-1 table of every text, every array is non-empty and
    every successor is END or a string that is itself a key.  Hence, on a
    non-empty table and with random numbers in [[0, 1)], the walk never
    fails to find the entry of the key it looks up: the call returns, and
    every element it emitted had an entry. *)
Theorem order1_table_closed_and_walk_safe (text : string) :
  let chains := Markov.chains (Markov.constructor text) in
  (forall k ar, map_get chains k = Some ar ->
     ar <> []
     /\ forall v, In v ar ->
          v = VNull \/ exists s ar', v = VStr s /\ map_get chains v = Some ar')
  /\ (forall rng numWords fuel,
        valid_rng rng -> chains <> [] ->
        (steps_left1 numWords 0 <= fuel)%nat ->
        exists out,
          Markov.makeText_out rng (Markov.constructor text) numWords fuel
            = Return out
          /\ Forall (fun v => map_get chains v <> None) out).
Proof.
  intros chains.
  assert (Hne : Forall (fun w => w <> "") (tokenize text))
    by apply is_token_nonempty, tokenize_tokens.
  pose proof (makeChains1_closed _ Hne) as Hclosed.
  change (Markov.makeChains (tokenize text)) with chains in Hclosed.
  split.
  - intros k ar Hget. destruct (Hclosed k ar Hget) as [Hnil Hsucc].
    split; [exact Hnil|]. intros v Hv.
    destruct (Hsucc v Hv) as [->|Hkey]; [now left | right].
    pose proof Hkey as Hkey'. apply makeChains1_keys in Hkey' as (s & _ & ->).
    apply map_get_keys in Hkey.
    destruct (map_get chains (VStr s)) as [ar'|] eqn:E; [|contradiction].
    exists s, ar'. auto.
  - intros rng numWords fuel Hrng Hnonempty Hfuel.
    unfold Markov.makeText_out. fold chains.
    assert (Hkeys : map_keys chains <> [])
      by (destruct chains; [contradiction | discriminate]).
    destruct (Hrng 0%nat) as [H0 H1].
    destruct (choice_in (rng 0%nat) (map_keys chains) H0 H1 Hkeys)
      as (key & -> & Hkey).
    destruct (loop1_safe rng chains numWords fuel Hrng Hclosed [] key 1 Hfuel
                (or_intror Hkey)) as [out Hout].
    exists out. split; [exact Hout|].
    apply loop1_walk in Hout as (pushed & -> & _ & Hwalk).
    eapply Forall_impl; [|exact (walk1_keys _ _ _ Hwalk)].
    intros v Hv. now apply map_get_keys.
Qed.

Lemma rng_const_half_valid : valid_rng (rng_const (1 # 2)).
Proof.
  intros n. unfold rng_const. split; [discriminate | reflexivity].
Qed.

Lemma order1_table_closed_and_walk_safe_witness :
  valid_rng (rng_const (1 # 2))
  /\ Markov.chains (Markov.constructor the_cat_in_the_hat) <> []
  /\ (steps_left1 default_numWords 0 <= 100)%nat
  /\ exists out,
       Markov.makeText_out (rng_const (1 # 2))
         (Markov.constructor the_cat_in_the_hat) default_numWords 100 = Return out.
Proof.
  assert (H1 : Markov.chains (Markov.constructor the_cat_in_the_hat) <> [])
    by (vm_compute; discriminate).
  assert (H2 : (steps_left1 default_numWords 0 <= 100)%nat)
    by (vm_compute; apply le_n).
  split; [exact rng_const_half_valid|]. split; [exact H1|]. split; [exact H2|].
  destruct (proj2 (order1_table_closed_and_walk_safe the_cat_in_the_hat)
              (rng_const (1 # 2)) default_numWords 100%nat
              rng_const_half_valid H1 H2) as (out & Hout & _).
  exists out. exact Hout.
Defined.

(** * Further properties *)

(** ** The tokenizer on composed texts *)

Lemma splits_into_delims (d s : string) (ts : list string) :
  all_delims d -> splits_into s ts -> splits_into (d ++ s)%string ts.
Proof.
  unfold all_delims. induction d as [|c d IH]; simpl; intros Hd H; [exact H|].
  apply andb_true_iff in Hd as [Hc Hd]. apply splits_into_delim; auto.
Qed.

Lemma join_tokens_splits (ts : list string) :
  Forall is_token ts -> splits_into (join " " (map VStr ts)) ts.
Proof.
  induction 1 as [|t ts [Hne Hnd] Hts IH].
  - now apply splits_done.
  - destruct ts as [|t' ts].
    + simpl. replace t with ("" ++ t ++ "")%string at 1
        by (simpl; apply append_empty_r).
      apply splits_token; try easy.
    + change (join " " (map VStr (t :: t' :: ts)))
        with ("" ++ t ++ String " " (join " " (map VStr (t' :: ts))))%string.
      apply splits_token; try easy. now apply splits_into_delim.
Qed.

Lemma tokenize_join_tokens (ts : list string) :
  Forall is_token ts -> tokenize (join " " (map VStr ts)) = ts.
Proof.
  intros H. apply splits_into_tokenize. now apply join_tokens_splits.
Qed.

(** The words of a text that was joined with single spaces are the words
    that were joined; in particular, normalising the separators of a text
    to single spaces does not change its words. *)
Theorem tokenize_join (ts : list string) (text : string) :
  (Forall is_token ts -> tokenize (join " " (map VStr ts)) = ts)
  /\ tokenize (join " " (map VStr (tokenize text))) = tokenize text.
Proof.
  split; [apply tokenize_join_tokens|].
  apply tokenize_join_tokens, tokenize_tokens.
Qed.

Lemma tokenize_join_witness :
  Forall is_token ["in"; "the"; "hat"]
  /\ tokenize (join " " (map VStr ["in"; "the"; "hat"])) = ["in"; "the"; "hat"].
Proof.
  assert (H : Forall is_token ["in"; "the"; "hat"])
    by (repeat constructor; discriminate).
  split; [exact H | exact (proj1 (tokenize_join _ "") H)].
Defined.

Lemma at_boundary_app (rest sep s : string) :
  at_boundary rest -> sep <> "" -> all_delims sep ->
  at_boundary (rest ++ sep ++ s)%string.
Proof.
  intros Hb Hne Hd. destruct rest as [|c rest]; [|exact Hb].
  destruct sep as [|c sep]; [contradiction|].
  unfold all_delims in Hd. simpl in *. now apply andb_true_iff in Hd as [Hc _].
Qed.

Lemma splits_into_app (a sep b : string) (ta tb : list string) :
  sep <> "" -> all_delims sep ->
  splits_into a ta -> splits_into b tb ->
  splits_into (a ++ sep ++ b)%string (ta ++ tb).
Proof.
  intros Hne Hsep Ha Hb.
  induction Ha as [d Hd|d t rest ts Hd Ht Hn Hbd Hr IH]; simpl.
  - apply splits_into_delims; [exact Hd|]. now apply splits_into_delims.
  - rewrite !append_assoc. apply splits_token; auto.
    now apply at_boundary_app.
Qed.

(** The words of two texts put together with a run of separators between
    them are the words of the first followed by the words of the second. *)
Theorem tokenize_app (a sep b : string) :
  sep <> "" -> all_delims sep ->
  tokenize (a ++ sep ++ b)%string = tokenize a ++ tokenize b.
Proof.
  intros Hne Hsep. apply splits_into_tokenize.
  apply splits_into_app; auto using tokenize_splits.
Qed.

Lemma tokenize_app_witness :
  String "010" "" <> "" /\ all_delims (String "010" "")
  /\ tokenize ("the cat" ++ String "010" "" ++ "in the hat")%string
     = tokenize "the cat" ++ tokenize "in the hat".
Proof.
  assert (H1 : String "010" "" <> "") by discriminate.
  assert (H2 : all_delims (String "010" "")) by reflexivity.
  split; [exact H1|]. split; [exact H2|].
  exact (tokenize_app "the cat" (String "010" "") "in the hat" H1 H2).
Defined.

Lemma tokenize_nil_delims (text : string) :
  tokenize text = [] <-> all_delims text.
Proof.
  split; intros H.
  - pose proof (tokenize_splits text) as Hs. rewrite H in Hs.
    inversion Hs; assumption.
  - apply splits_into_tokenize. now apply splits_done.
Qed.

(** A text has no words exactly when it is made of separators only. *)
Theorem tokenize_nil_iff (text : string) :
  tokenize text = [] <-> all_delims text.
Proof. apply tokenize_nil_delims. Qed.

Lemma tokenize_nil_iff_witness :
  all_delims (String " " (String "010" ""))
  /\ tokenize (String " " (String "010" "")) = [].
Proof.
  assert (H : all_delims (String " " (String "010" ""))) by reflexivity.
  split; [exact H | exact (proj2 (tokenize_nil_iff _) H)].
Defined.

Lemma remove_delims_app (a b : string) :
  remove_delims (a ++ b)%string = (remove_delims a ++ remove_delims b)%string.
Proof.
  induction a as [|c a IH]; simpl; [reflexivity|].
  destruct (is_delim c); simpl; now rewrite IH.
Qed.

Lemma remove_delims_delims (d : string) : all_delims d -> remove_delims d = "".
Proof.
  unfold all_delims. induction d as [|c d IH]; simpl; [reflexivity|].
  intros H. apply andb_true_iff in H as [Hc Hd]. rewrite Hc. auto.
Qed.

Lemma remove_delims_word (t : string) : no_delim t -> remove_delims t = t.
Proof.
  unfold no_delim. induction t as [|c t IH]; simpl; [reflexivity|].
  intros H. apply andb_true_iff in H as [Hc Ht]. apply negb_true_iff in Hc.
  rewrite Hc, IH by exact Ht. reflexivity.
Qed.

(** The tokenizer loses and changes no character other than separators: the
    tokens, one after the other, are the text without its separators. *)
Theorem tokenize_keeps_characters (text : string) :
  flatten (tokenize text) = remove_delims text.
Proof.
  pose proof (tokenize_splits text) as H.
  induction H as [d Hd|d t rest ts Hd Ht Hn Hb Hr IH]; simpl.
  - symmetry. now apply remove_delims_delims.
  - rewrite !remove_delims_app, remove_delims_delims, remove_delims_word, IH
      by assumption.
    reflexivity.
Qed.

(** ** More on the build loop *)

Lemma map_keys_push (m : Map) (k x : value) :
  map_keys (map_push m k x) = map_keys m.
Proof.
  induction m as [|[k0 ar0] m IH]; simpl; [reflexivity|].
  destruct (value_eqb k k0); simpl; [reflexivity | now rewrite IH].
Qed.

Lemma map_has_cons (k k0 : value) (ar0 : list value) (m : Map) :
  value_eqb k k0 = false -> map_has ((k0, ar0) :: m) k = map_has m k.
Proof. intros E. unfold map_has. simpl. now rewrite E. Qed.

Lemma map_keys_set (m : Map) (k : value) (ar : list value) :
  map_has m k = false -> map_keys (map_set m k ar) = map_keys m ++ [k].
Proof.
  induction m as [|[k0 ar0] m IH]; simpl; intros H; [reflexivity|].
  destruct (value_eqb k k0) eqn:E.
  - unfold map_has in H. simpl in H. now rewrite E in H.
  - rewrite map_has_cons in H by exact E. simpl. now rewrite IH.
Qed.

Lemma total_entries_push (m : Map) (k x : value) :
  map_has m k = true -> total_entries (map_push m k x) = S (total_entries m).
Proof.
  unfold total_entries.
  induction m as [|[k0 ar0] m IH]; simpl; intros H; [discriminate|].
  destruct (value_eqb k k0) eqn:E; simpl.
  - rewrite length_app. simpl. lia.
  - rewrite map_has_cons in H by exact E. rewrite IH by exact H. lia.
Qed.

Lemma total_entries_set (m : Map) (k : value) (ar : list value) :
  map_has m k = false ->
  total_entries (map_set m k ar) = (total_entries m + List.length ar)%nat.
Proof.
  unfold total_entries.
  induction m as [|[k0 ar0] m IH]; simpl; intros H; [lia|].
  destruct (value_eqb k k0) eqn:E; simpl.
  - unfold map_has in H. simpl in H. now rewrite E in H.
  - rewrite map_has_cons in H by exact E. rewrite IH by exact H. lia.
Qed.

Lemma map_has_keys (m : Map) (k : value) :
  map_has m k = true <-> In k (map_keys m).
Proof.
  rewrite map_get_keys. unfold map_has.
  destruct (map_get m k); split; intros H; congruence.
Qed.

Section Build.
Variables keyf succf : nat -> value.

Lemma build_total (n : nat) : total_entries (build keyf succf n) = n.
Proof.
  induction n as [|n IH]; [reflexivity|].
  rewrite build_S. unfold build_step.
  destruct (map_has (build keyf succf n) (keyf n)) eqn:E.
  - now rewrite total_entries_push, IH.
  - rewrite total_entries_set, IH by exact E. simpl. lia.
Qed.

Lemma build_keys_nodup (n : nat) : NoDup (map_keys (build keyf succf n)).
Proof.
  induction n as [|n IH]; [constructor|].
  rewrite build_S. unfold build_step.
  destruct (map_has (build keyf succf n) (keyf n)) eqn:E.
  - now rewrite map_keys_push.
  - rewrite map_keys_set by exact E.
    apply NoDup_app; [exact IH | repeat constructor; easy |].
    intros k Hk [<-|[]]. apply map_has_keys in Hk. congruence.
Qed.

Lemma build_keys_length (n : nat) :
  (List.length (map_keys (build keyf succf n)) <= n)%nat.
Proof.
  induction n as [|n IH]; [simpl; lia|].
  rewrite build_S. unfold build_step.
  destruct (map_has (build keyf succf n) (keyf n)) eqn:E.
  - rewrite map_keys_push. lia.
  - rewrite map_keys_set, length_app by exact E. simpl. lia.
Qed.

(** When only the last index has END as its successor, END is in the array
    of the key of the last index alone, as its last element. *)
Lemma observed_end (m : nat) (k : value) :
  (forall i, (i < m)%nat -> succf i <> VNull) -> succf m = VNull ->
  exists body,
    Forall (fun v => v <> VNull) body
    /\ observed keyf succf (S m) k =
       body ++ (if value_eqb (keyf m) k then [VNull] else []).
Proof.
  intros Hbody Hlast. exists (observed keyf succf m k).
  split; [|now rewrite observed_S, Hlast].
  apply Forall_forall. intros v Hv.
  apply observed_in in Hv as (i & Hi & _ & <-). now apply Hbody.
Qed.

End Build.

(** ** More on the two tables *)

Lemma occurrences1_in (words : list string) (k : string) (i : nat) :
  In i (occurrences1 words k) <-> nth_error words i = Some k.
Proof.
  unfold occurrences1. rewrite filter_In, in_seq. split.
  - intros [_ H]. destruct (nth_error words i) as [w|]; [|discriminate].
    apply String.eqb_eq in H. now subst.
  - intros H. split.
    + assert (i < List.length words)%nat by (apply nth_error_Some; congruence). lia.
    + rewrite H. apply String.eqb_refl.
Qed.

Lemma occurrences2_in (words : list string) (a b : string) (i : nat) :
  In i (occurrences2 words a b) <->
  nth_error words i = Some a /\ nth_error words (i + 1) = Some b.
Proof.
  unfold occurrences2. rewrite filter_In, in_seq. split.
  - intros [_ H]. destruct (nth_error words i) as [x|]; [|discriminate].
    destruct (nth_error words (i + 1)) as [y|]; [|discriminate].
    apply andb_true_iff in H as [Hx Hy].
    apply String.eqb_eq in Hx, Hy. now subst.
  - intros [Ha Hb]. split.
    + assert (i < List.length words)%nat by (apply nth_error_Some; congruence). lia.
    + rewrite Ha, Hb, !String.eqb_refl. reflexivity.
Qed.

Lemma count_indices (words : list string) (k : string) :
  List.length (occurrences1 words k) = count_occ string_dec words k.
Proof.
  unfold occurrences1.
  induction words as [|x l IH] using rev_ind; [reflexivity|].
  rewrite length_app, count_occ_app. simpl.
  replace (List.length l + 1)%nat with (S (List.length l)) by lia.
  rewrite seq_S, filter_app, length_app. simpl. f_equal.
  - rewrite <- IH. f_equal. apply filter_ext_in. intros i Hi.
    apply in_seq in Hi. rewrite nth_error_app1 by lia. reflexivity.
  - rewrite nth_error_app2, Nat.sub_diag by lia. simpl.
    destruct (string_dec x k) as [->|Hne].
    + now rewrite String.eqb_refl.
    + apply String.eqb_neq in Hne. now rewrite Hne.
Qed.

(** The order-1 table holds one successor entry for each token of the
    corpus, under keys that are all different. *)
Theorem makeChains1_entries (words : list string) :
  total_entries (Markov.makeChains words) = List.length words
  /\ NoDup (map_keys (Markov.makeChains words))
  /\ (List.length (map_keys (Markov.makeChains words)) <= List.length words)%nat.
Proof.
  rewrite makeChains1_build.
  auto using build_total, build_keys_nodup, build_keys_length.
Qed.

(** The order-2 table holds one successor entry for each adjacent pair of
    the corpus, one less than there are tokens, under keys that are all
    different. *)
Theorem makeChains2_entries (words : list string) :
  total_entries (Bigram.makeChains words) = (List.length words - 1)%nat
  /\ NoDup (map_keys (Bigram.makeChains words))
  /\ (List.length (map_keys (Bigram.makeChains words)) <= List.length words - 1)%nat.
Proof.
  rewrite makeChains2_build.
  auto using build_total, build_keys_nodup, build_keys_length.
Qed.

(** The array that the order-1 table stores under a word has as many
    entries as the word has occurrences in the corpus; a word that does not
    occur has no array. *)
Theorem makeChains1_array_length (words : list string) (k : string) :
  match map_get (Markov.makeChains words) (VStr k) with
  | Some ar => List.length ar = count_occ string_dec words k
               /\ (0 < count_occ string_dec words k)%nat
  | None => count_occ string_dec words k = 0%nat
  end.
Proof.
  rewrite makeChains1_build, build_get, <- count_indices.
  assert (E : List.length
                (observed (fun i => word_at words (Z.of_nat i))
                   (fun i => js_or (word_at words (Z.of_nat i + 1)) VNull)
                   (List.length words) (VStr k))
              = List.length (occurrences1 words k)).
  { unfold observed, occurrences1. rewrite length_map. f_equal.
    apply filter_ext. intros i. rewrite word_at_nat.
    destruct (nth_error words i); reflexivity. }
  destruct (observed _ _ _ _) as [|v l]; simpl in *; [lia|].
  split; lia.
Qed.

Lemma next_word_defined (words : list string) (j : nat) :
  Forall (fun w => w <> "") words -> (j < List.length words)%nat ->
  js_or (word_at words (Z.of_nat j)) VNull <> VNull.
Proof.
  intros Hne Hj. rewrite next_word_successor by exact Hne.
  unfold successor_at. destruct (nth_error words j) eqn:E; [discriminate|].
  apply nth_error_None in E. lia.
Qed.

Lemma next_word_end (words : list string) (j : nat) :
  (List.length words <= j)%nat ->
  js_or (word_at words (Z.of_nat j)) VNull = VNull.
Proof.
  intros Hj. rewrite word_at_nat.
  assert (E : nth_error words j = None) by now apply nth_error_None.
  now rewrite E.
Qed.

Lemma end_entry_position (words : list string) (k : string) (ar : list value) :
  Forall (fun w => w <> "") words ->
  map_get (Markov.makeChains words) (VStr k) = Some ar ->
  (In VNull ar <-> last_word words = Some k)
  /\ exists body,
       Forall (fun v => v <> VNull) body
       /\ (ar = body \/ ar = body ++ [VNull]).
Proof.
  intros Hne Hget. rewrite makeChains1_build, build_get in Hget.
  destruct (List.length words) as [|m] eqn:En; [discriminate|].
  apply opt_list_some in Hget as [<- _].
  destruct (observed_end (fun i => word_at words (Z.of_nat i))
              (fun i => js_or (word_at words (Z.of_nat i + 1)) VNull) m (VStr k))
    as (body & Hbody & ->).
  - intros i Hi. change 1%Z with (Z.of_nat 1). rewrite word_at_plus.
    apply next_word_defined; [exact Hne | lia].
  - change 1%Z with (Z.of_nat 1). rewrite word_at_plus.
    apply next_word_end. lia.
  - unfold last_word. rewrite En. replace (S m - 1)%nat with m by lia.
    rewrite word_at_nat.
    destruct (nth_error words m) as [w|] eqn:Ew;
      [|apply nth_error_None in Ew; lia].
    simpl. destruct (String.eqb w k) eqn:E.
    + apply String.eqb_eq in E. subst w. split.
      * split; [reflexivity | intros _; apply in_or_app; right; now left].
      * exists body. auto.
    + apply String.eqb_neq in E. rewrite app_nil_r. split.
      * split; [|congruence]. intros Hin.
        rewrite Forall_forall in Hbody. now destruct (Hbody _ Hin).
      * exists body. auto.
Qed.

(** In the order-1 table END is stored in one place only: as the last
    element of the array of the last word of the corpus.  Every other entry
    is a word. *)
Theorem makeChains1_end (words : list string) (k : string) (ar : list value) :
  Forall (fun w => w <> "") words ->
  map_get (Markov.makeChains words) (VStr k) = Some ar ->
  (In VNull ar <-> last_word words = Some k)
  /\ exists body,
       Forall (fun v => v <> VNull) body
       /\ (ar = body \/ ar = body ++ [VNull]).
Proof. apply end_entry_position. Qed.

Lemma makeChains1_end_witness :
  Forall (fun w => w <> "") ["the"; "cat"; "in"; "the"; "hat"]
  /\ map_get (Markov.makeChains ["the"; "cat"; "in"; "the"; "hat"]) (VStr "hat")
     = Some [VNull]
  /\ (In VNull [VNull] <->
      last_word ["the"; "cat"; "in"; "the"; "hat"] = Some "hat").
Proof.
  assert (H : Forall (fun w => w <> "") ["the"; "cat"; "in"; "the"; "hat"])
    by (repeat constructor; discriminate).
  assert (G : map_get (Markov.makeChains ["the"; "cat"; "in"; "the"; "hat"])
                (VStr "hat") = Some [VNull]) by reflexivity.
  split; [exact H|]. split; [exact G|].
  exact (proj1 (makeChains1_end _ "hat" [VNull] H G)).
Defined.

(** In the order-2 table, a word stored as a successor of the pair [(a, b)]
    forms with [b] a pair that is itself a key, and it is the key that the
    walk rebuilds from the second part of the current key and that word. *)
Theorem makeChains2_successor_key (words : list string) (a b c : string)
    (ar : list value) :
  Forall is_token words ->
  map_get (Bigram.makeChains words) (bigram_key a b) = Some ar ->
  In (VStr c) ar ->
  In (bigram_key b c) (map_keys (Bigram.makeChains words))
  /\ js_concat (js_concat (key_w2 (a ++ " " ++ b)) (VStr " ")) (VStr c)
     = bigram_key b c.
Proof.
  intros Htok Hget Hc. rewrite makeChains2_get in Hget by exact Htok.
  apply opt_list_some in Hget as [<- _].
  unfold successors2 in Hc. apply in_map_iff in Hc as (i & Hs & Hi).
  apply occurrences2_in in Hi as [Ha Hb].
  unfold successor_at in Hs.
  destruct (nth_error words (i + 2)) as [w|] eqn:Ew; [|discriminate].
  injection Hs as ->. split.
  - apply makeChains2_keys. exists (i + 1)%nat, b, c.
    replace (i + 1 + 1)%nat with (i + 2)%nat by lia. auto.
  - unfold key_w2.
    rewrite split_sp_bigram by (eapply word_is_token; eauto).
    unfold js_concat, bigram_key. simpl. now rewrite append_assoc.
Qed.

Lemma makeChains2_successor_key_witness :
  Forall is_token ["the"; "cat"; "in"; "the"; "hat"]
  /\ In (bigram_key "in" "the")
        (map_keys (Bigram.makeChains ["the"; "cat"; "in"; "the"; "hat"])).
Proof.
  assert (H : Forall is_token ["the"; "cat"; "in"; "the"; "hat"])
    by (repeat constructor; discriminate).
  split; [exact H|].
  exact (proj1 (makeChains2_successor_key _ "cat" "in" "the" [VStr "the"] H
                  eq_refl (or_introl eq_refl))).
Defined.

(** ** [choice], cell by cell *)




(** No element of an array is out of reach of [choice]: each one is returned
    for some number in [[0, 1)]. *)
Theorem choice_reaches_every_element (ar : list value) (v : value) :
  In v ar -> exists r, 0 <= r /\ r < 1 /\ choice r (Some ar) = Return v.
Proof.
  intros Hin. apply In_nth_error in Hin as [i Hi].
  assert (Hlt : (i < List.length ar)%nat) by (apply nth_error_Some; congruence).
  set (n := List.length ar) in *.
  exists (Z.of_nat i # Pos.of_nat n).
  assert (Hn : Z.pos (Pos.of_nat n) = Z.of_nat n).
  { rewrite <- positive_nat_Z, Nat2Pos.id by lia. reflexivity. }
  assert (Hprod : (Z.of_nat i # Pos.of_nat n) * inject_Z (Z.of_nat n)
                  == inject_Z (Z.of_nat i)).
  { unfold Qeq, Qmult, inject_Z. simpl. rewrite Pos.mul_1_r, Hn. lia. }
  repeat split.
  - unfold Qle. simpl. lia.
  - unfold Qlt. simpl. rewrite Hn. lia.
  - unfold choice, array_get. fold n.
    rewrite (Qfloor_comp _ _ Hprod), Qfloor_Z.
    destruct (Z.of_nat i <? 0)%Z eqn:E; [apply Z.ltb_lt in E; lia|].
    now rewrite Nat2Z.id, Hi.
Qed.

Lemma choice_reaches_every_element_witness :
  In (VStr "hat") [VStr "cat"; VStr "hat"]
  /\ exists r, 0 <= r /\ r < 1
               /\ choice r (Some [VStr "cat"; VStr "hat"]) = Return (VStr "hat").
Proof.
  assert (H : In (VStr "hat") [VStr "cat"; VStr "hat"])
    by (right; left; reflexivity).
  split; [exact H | exact (choice_reaches_every_element _ _ H)].
Defined.

(** On an array, [choice] with a number in [[0, 1)] returns an element of
    the array when there is one and [undefined] when the array is empty; on
    [undefined] in place of the array it raises. *)
Theorem choice_edges (r : Q) :
  (forall ar, 0 <= r -> r < 1 -> ar <> [] ->
     exists v, choice r (Some ar) = Return v /\ In v ar)
  /\ choice r (Some []) = Return VUndefined
  /\ choice r None = Throw TypeError.
Proof.
  split; [|split].
  - intros ar H0 H1 Hne. now apply choice_in.
  - unfold choice. now rewrite array_get_nil.
  - reflexivity.
Qed.

Lemma choice_edges_witness :
  0 <= 1 # 2 /\ 1 # 2 < 1 /\ [VStr "in"] <> []
  /\ exists v, choice (1 # 2) (Some [VStr "in"]) = Return v /\ In v [VStr "in"].
Proof.
  assert (H0 : 0 <= 1 # 2) by discriminate.
  assert (H1 : 1 # 2 < 1) by reflexivity.
  assert (H2 : [VStr "in"] <> []) by discriminate.
  split; [exact H0|]. split; [exact H1|]. split; [exact H2|].
  exact (proj1 (choice_edges (1 # 2)) [VStr "in"] H0 H1 H2).
Defined.

(** ** Walks follow the corpus *)

Lemma linked_map_VStr (words : list string) (ws : list string) :
  linked (adjacent_values words) (map VStr ws) -> linked (adjacent words) ws.
Proof.
  induction ws as [|a ws IH]; [auto|].
  destruct ws as [|b ws]; [simpl; auto|].
  intros [(x & y & Ex & Ey & Hadj) Hrest].
  injection Ex as <-. injection Ey as <-. split; auto.
Qed.

Lemma corpus_tokens_strings (words : list string) (out : list value) :
  Forall (corpus_token words) out ->
  exists ws, out = map VStr ws /\ Forall (fun w => In w words) ws.
Proof.
  induction 1 as [|v out (w & -> & Hw) _ (ws & -> & Hws)].
  - exists []. auto.
  - exists (w :: ws). auto.
Qed.

Lemma walk1_linked (words : list string) (key : value) (pushed : list value) :
  Forall (fun w => w <> "") words ->
  walk1 (Markov.makeChains words) key pushed ->
  linked (adjacent_values words) pushed.
Proof.
  intros Hne. induction 1 as [|key ar key' rest Hget Hin Hw IH]; [exact I|].
  destruct rest as [|x rest]; [exact I|]. split; [|exact IH].
  inversion Hw as [|? ar' ? ? Hget' _ _]; subst.
  assert (Hk : In key (map_keys (Markov.makeChains words)))
    by (apply map_get_keys; congruence).
  assert (Hk' : In x (map_keys (Markov.makeChains words)))
    by (apply map_get_keys; congruence).
  apply makeChains1_keys in Hk as (a & _ & ->).
  apply makeChains1_keys in Hk' as (b & _ & ->).
  destruct Hin as [Hin|Hin]; [discriminate|].
  rewrite makeChains1_get in Hget by exact Hne.
  apply opt_list_some in Hget as [<- _].
  unfold successors1 in Hin. apply in_map_iff in Hin as (i & Hs & Hi).
  apply occurrences1_in in Hi. unfold successor_at in Hs.
  destruct (nth_error words (i + 1)) as [w|] eqn:Ew; [|discriminate].
  exists a, b. repeat split. exists i. split; congruence.
Qed.

Lemma split_sp_first (y s : string) :
  no_space y ->
  split_sp "" ((y ++ " ") ++ s)%string = y :: split_sp "" s.
Proof.
  intros Hy. rewrite append_assoc, split_sp_word by exact Hy. reflexivity.
Qed.

Lemma walk2_head (chains : Map) (k : string) (x : value) (rest : list value) :
  walk2 chains (VStr k) (x :: rest) -> x = key_w1 k.
Proof. inversion 1. reflexivity. Qed.

Lemma walk2_linked (words : list string) (key : value) (pushed : list value) :
  Forall is_token words ->
  walk2 (Bigram.makeChains words) key pushed ->
  linked (adjacent_values words) pushed.
Proof.
  intros Htok. induction 1 as [|k ar nxt rest Hget Hin Hw IH]; [exact I|].
  destruct rest as [|x rest]; [exact I|]. split; [|exact IH].
  assert (Hk : In (VStr k) (map_keys (Bigram.makeChains words)))
    by (apply map_get_keys; congruence).
  apply makeChains2_keys in Hk as (i & a & b & Ha & Hb & Hk).
  assert (Ek : k = (a ++ " " ++ b)%string) by (unfold bigram_key in Hk; congruence).
  subst k.
  assert (Sa : no_space a) by (eapply word_is_token; eauto).
  assert (Sb : no_space b) by (eapply word_is_token; eauto).
  unfold key_w1, key_w2 in *. rewrite split_sp_bigram in * by assumption.
  change (array_get VStr [a; b] 0) with (VStr a).
  change (array_get VStr [a; b] 1) with (VStr b) in Hw.
  change (js_concat (js_concat (VStr b) (VStr " ")) nxt)
    with (VStr ((b ++ " ") ++ to_js_string nxt)) in Hw.
  rewrite (walk2_head _ _ _ _ Hw). unfold key_w1.
  rewrite split_sp_first by exact Sb.
  exists a, b. repeat split. exists i. auto.
Qed.

(** ** How long the generated texts are *)

Lemma loop2_exact (rng : nat -> Q) (chains : Map) (numWords : Z) (fuel : nat) :
  forall out key calls out',
    key <> VNull ->
    Bigram.makeText_loop rng fuel chains numWords out key calls = Return out' ->
    Z.of_nat (List.length out') =
    Z.max (Z.of_nat (List.length out)) (numWords + 1).
Proof.
  induction fuel as [|fuel IH]; intros out key calls out' Hkey H; simpl in H.
  - destruct (Z.of_nat (List.length out) <=? numWords)%Z eqn:E.
    + destruct key; simpl in H; try discriminate. contradiction.
    + simpl in H. injection H as <-. apply Z.leb_gt in E. lia.
  - destruct (Z.of_nat (List.length out) <=? numWords)%Z eqn:E.
    + apply Z.leb_le in E.
      destruct key as [| |k]; simpl in H; try discriminate; [contradiction|].
      destruct (choice (rng calls) (map_get chains (VStr k))) as [nxt|e|];
        try discriminate.
      apply IH in H; [|discriminate].
      rewrite length_app in H. simpl in H. lia.
    + simpl in H. injection H as <-. apply Z.leb_gt in E. lia.
Qed.

Lemma loop1_short (rng : nat -> Q) (chains : Map) (numWords : Z) (fuel : nat) :
  forall out key calls out',
    Markov.makeText_loop rng fuel chains numWords out key calls = Return out' ->
    (Z.of_nat (List.length out') < numWords)%Z ->
    (key = VNull /\ out' = out)
    \/ exists body last ar,
         out' = body ++ [last] /\ map_get chains last = Some ar /\ In VNull ar.
Proof.
  induction fuel as [|fuel IH]; intros out key calls out' H Hlen; simpl in H.
  - destruct (Z.of_nat (List.length out) <? numWords)%Z eqn:E.
    + destruct key; simpl in H; try discriminate. injection H as <-. auto.
    + simpl in H. injection H as <-. apply Z.ltb_ge in E. lia.
  - destruct (Z.of_nat (List.length out) <? numWords)%Z eqn:E.
    + destruct (is_null key) eqn:Hnull; simpl in H.
      * destruct key; try discriminate. injection H as <-. auto.
      * destruct (choice (rng calls) (map_get chains key)) as [key'|e|] eqn:Ec;
          try discriminate.
        apply choice_return in Ec as (ar & Hget & Hin).
        destruct (IH _ _ _ _ H Hlen) as [[-> ->]|Hright]; [|now right].
        right. exists out, key, ar. repeat split; auto.
        destruct Hin as [Hin|Hin]; [discriminate | exact Hin].
    + simpl in H. injection H as <-. apply Z.ltb_ge in E. lia.
Qed.

Lemma start_key_cases (r : Q) (chains : Map) (key : value) :
  choice r (Some (map_keys chains)) = Return key ->
  key = VUndefined \/ In key (map_keys chains).
Proof.
  intros H. apply choice_return in H as (l & [= <-] & H). exact H.
Qed.

(** ** The generated text, word by word *)

Lemma makeText_return {A B : Type} (f : A -> B) (r : result A) (b : B) :
  result_map f r = Return b -> exists a, r = Return a /\ b = f a.
Proof. destruct r; simpl; intros [= <-]. eauto. Qed.

Lemma makeText1_linked (rng : nat -> Q) (text : string) (numWords : Z)
    (fuel : nat) (out : list value) :
  Markov.makeText_out rng (Markov.constructor text) numWords fuel = Return out ->
  linked (adjacent_values (tokenize text)) out.
Proof.
  unfold Markov.makeText_out.
  destruct (choice (rng 0%nat) _) as [key| |]; try discriminate.
  intros H. apply loop1_walk in H as (pushed & -> & _ & Hwalk).
  eapply walk1_linked; [|exact Hwalk].
  apply is_token_nonempty, tokenize_tokens.
Qed.

Lemma makeText2_linked (rng : nat -> Q) (text : string) (numWords : Z)
    (fuel : nat) (out : list value) :
  Bigram.makeText_out rng (Bigram.constructor text) numWords fuel = Return out ->
  linked (adjacent_values (tokenize text)) out.
Proof.
  unfold Bigram.makeText_out.
  destruct (choice (rng 0%nat) _) as [key| |]; try discriminate.
  intros H. apply loop2_walk in H as (pushed & -> & _ & Hwalk).
  eapply walk2_linked; [|exact Hwalk]. apply tokenize_tokens.
Qed.

Lemma corpus_words_tokens (text : string) (ws : list string) :
  Forall (fun w => In w (tokenize text)) ws -> Forall is_token ws.
Proof.
  apply Forall_impl. intros w Hw.
  pose proof (tokenize_tokens text) as H. rewrite Forall_forall in H. auto.
Qed.

(** A text that the order-1 generator returns is made of words of the
    corpus separated by single spaces, at most [numWords] of them, and every
    two words in a row stand next to each other somewhere in the corpus. *)
Theorem order1_text_follows_corpus (rng : nat -> Q) (text : string)
    (numWords : Z) (fuel : nat) (s : string) :
  Markov.makeText rng (Markov.constructor text) numWords fuel = Return s ->
  s = join " " (map VStr (tokenize s))
  /\ (List.length (tokenize s) <= Z.to_nat numWords)%nat
  /\ Forall (fun w => In w (tokenize text)) (tokenize s)
  /\ linked (adjacent (tokenize text)) (tokenize s).
Proof.
  intros H. apply makeText_return in H as (out & Hout & ->).
  pose proof (makeText1_linked _ _ _ _ _ Hout) as Hlinked.
  apply makeText1_output in Hout as (Hlen & Hcorpus & _).
  apply corpus_tokens_strings in Hcorpus as (ws & -> & Hws).
  rewrite tokenize_join_tokens by (eapply corpus_words_tokens; eauto).
  rewrite length_map in Hlen. unfold steps_left1 in Hlen.
  repeat split; auto using linked_map_VStr. lia.
Qed.

Lemma order1_text_follows_corpus_witness :
  Markov.makeText (rng_const (1 # 4)) (Markov.constructor the_cat_in_the_hat) 4 4
    = Return "cat in the cat"
  /\ linked (adjacent (tokenize the_cat_in_the_hat)) (tokenize "cat in the cat").
Proof.
  assert (H : Markov.makeText (rng_const (1 # 4))
                (Markov.constructor the_cat_in_the_hat) 4 4
              = Return "cat in the cat") by (vm_compute; reflexivity).
  split; [exact H|].
  exact (proj2 (proj2 (proj2 (order1_text_follows_corpus _ _ _ _ _ H)))).
Defined.

(** A text that the order-2 generator returns is made of words of the
    corpus separated by single spaces, and every two words in a row stand
    next to each other somewhere in the corpus. *)
Theorem order2_text_follows_corpus (rng : nat -> Q) (text : string)
    (numWords : Z) (fuel : nat) (s : string) :
  Bigram.makeText rng (Bigram.constructor text) numWords fuel = Return s ->
  s = join " " (map VStr (tokenize s))
  /\ Forall (fun w => In w (tokenize text)) (tokenize s)
  /\ linked (adjacent (tokenize text)) (tokenize s).
Proof.
  intros H. apply makeText_return in H as (out & Hout & ->).
  pose proof (makeText2_linked _ _ _ _ _ Hout) as Hlinked.
  apply makeText2_output in Hout as (_ & Hcorpus).
  apply corpus_tokens_strings in Hcorpus as (ws & -> & Hws).
  rewrite tokenize_join_tokens by (eapply corpus_words_tokens; eauto).
  repeat split; auto using linked_map_VStr.
Qed.

Lemma order2_text_follows_corpus_witness :
  Bigram.makeText (rng_const 0) (Bigram.constructor the_cat_in_the_hat) 2 3
    = Return "the cat in"
  /\ linked (adjacent (tokenize the_cat_in_the_hat)) (tokenize "the cat in").
Proof.
  assert (H : Bigram.makeText (rng_const 0)
                (Bigram.constructor the_cat_in_the_hat) 2 3
              = Return "the cat in") by (vm_compute; reflexivity).
  split; [exact H|].
  exact (proj2 (proj2 (order2_text_follows_corpus _ _ _ _ _ H))).
Defined.

Lemma bigram_start_not_null (r : Q) (text : string) (key : value) :
  choice r (Some (map_keys (Bigram.chains (Bigram.constructor text)))) = Return key ->
  key <> VNull.
Proof.
  intros H. apply start_key_cases in H as [->|H]; [discriminate|].
  apply makeChains2_keys in H as (i & a & b & _ & _ & ->). discriminate.
Qed.

Lemma makeText2_exact (rng : nat -> Q) (text : string)
    (numWords : Z) (fuel : nat) (s : string) :
  Bigram.makeText rng (Bigram.constructor text) numWords fuel = Return s ->
  List.length (tokenize s) = Z.to_nat (numWords + 1).
Proof.
  intros H. apply makeText_return in H as (out & Hout & ->).
  pose proof Hout as Hcorpus. apply makeText2_output in Hcorpus as (_ & Hcorpus).
  apply corpus_tokens_strings in Hcorpus as (ws & -> & Hws).
  rewrite tokenize_join_tokens by (eapply corpus_words_tokens; eauto).
  unfold Bigram.makeText_out in Hout.
  destruct (choice (rng 0%nat) _) as [key| |] eqn:Ec; try discriminate.
  apply bigram_start_not_null in Ec.
  apply loop2_exact in Hout; [|exact Ec].
  rewrite length_map in Hout. simpl in Hout. lia.
Qed.

(** The order-2 generator never returns a short text: a call that returns
    has produced exactly [numWords + 1] words (none when [numWords] is
    negative). *)
Theorem order2_returns_exactly_one_more (rng : nat -> Q) (text : string)
    (numWords : Z) (fuel : nat) (s : string) :
  Bigram.makeText rng (Bigram.constructor text) numWords fuel = Return s ->
  List.length (tokenize s) = Z.to_nat (numWords + 1).
Proof. apply makeText2_exact. Qed.

Lemma order2_returns_exactly_one_more_witness :
  Bigram.makeText (rng_const 0) (Bigram.constructor the_cat_in_the_hat) 2 3
    = Return "the cat in"
  /\ List.length (tokenize "the cat in") = Z.to_nat (2 + 1).
Proof.
  assert (H : Bigram.makeText (rng_const 0)
                (Bigram.constructor the_cat_in_the_hat) 2 3
              = Return "the cat in") by (vm_compute; reflexivity).
  split; [exact H | exact (order2_returns_exactly_one_more _ _ _ _ _ H)].
Defined.

Lemma markov_start_cases (r : Q) (text : string) (key : value) :
  choice r (Some (map_keys (Markov.chains (Markov.constructor text)))) = Return key ->
  key = VUndefined \/ exists w, key = VStr w /\ In w (tokenize text).
Proof.
  intros H. apply start_key_cases in H as [->|H]; [now left | right].
  apply makeChains1_keys in H as (w & Hw & ->). eauto.
Qed.

(** When the order-1 generator returns fewer than [numWords] words, the
    text ends with the last word of the corpus. *)
Theorem order1_short_text_ends_corpus (rng : nat -> Q) (text : string)
    (numWords : Z) (fuel : nat) (s : string) :
  Markov.makeText rng (Markov.constructor text) numWords fuel = Return s ->
  (Z.of_nat (List.length (tokenize s)) < numWords)%Z ->
  exists body w,
    tokenize s = body ++ [w] /\ last_word (tokenize text) = Some w.
Proof.
  intros H Hshort. apply makeText_return in H as (out & Hout & ->).
  pose proof Hout as Hcorpus. apply makeText1_output in Hcorpus as (_ & Hcorpus & _).
  apply corpus_tokens_strings in Hcorpus as (ws & -> & Hws).
  rewrite tokenize_join_tokens in * by (eapply corpus_words_tokens; eauto).
  unfold Markov.makeText_out in Hout.
  destruct (choice (rng 0%nat) _) as [key| |] eqn:Ec; try discriminate.
  apply markov_start_cases in Ec.
  apply loop1_short in Hout; [|rewrite length_map; exact Hshort].
  destruct Hout as [[-> _]|(body & last & ar & Hbody & Hget & Hend)].
  - destruct Ec as [Ec|(w & Ec & _)]; discriminate.
  - simpl in Hbody, Hget.
    assert (Hne : Forall (fun w => w <> "") (tokenize text))
      by apply is_token_nonempty, tokenize_tokens.
    assert (Hkey : In last (map_keys (Markov.makeChains (tokenize text))))
      by (apply map_get_keys; congruence).
    apply makeChains1_keys in Hkey as (w & _ & ->).
    destruct (end_entry_position _ _ _ Hne Hget) as [Hiff _].
    apply Hiff in Hend.
    destruct ws as [|x ws] using rev_ind; [now destruct body|].
    rewrite map_app in Hbody. simpl in Hbody.
    apply app_inj_tail in Hbody as [_ [= ->]].
    exists ws, w. auto.
Qed.

Lemma order1_short_text_ends_corpus_witness :
  Markov.makeText (rng_const (1 # 2)) (Markov.constructor the_cat_in_the_hat)
    default_numWords 100 = Return "in the hat"
  /\ (Z.of_nat (List.length (tokenize "in the hat")) < default_numWords)%Z
  /\ exists body w,
       tokenize "in the hat" = body ++ [w]
       /\ last_word (tokenize the_cat_in_the_hat) = Some w.
Proof.
  assert (H : Markov.makeText (rng_const (1 # 2))
                (Markov.constructor the_cat_in_the_hat) default_numWords 100
              = Return "in the hat") by (vm_compute; reflexivity).
  assert (L : (Z.of_nat (List.length (tokenize "in the hat")) < default_numWords)%Z)
    by (vm_compute; reflexivity).
  split; [exact H|]. split; [exact L|].
  exact (order1_short_text_ends_corpus _ _ _ _ _ H L).
Defined.

(** ** When the generators return *)

Lemma chains1_nonempty (text : string) :
  tokenize text <> [] -> Markov.chains (Markov.constructor text) <> [].
Proof.
  intros Hne Hnil. destruct (tokenize text) as [|w ws] eqn:E; [contradiction|].
  assert (H : In (VStr w) (map_keys (Markov.makeChains (tokenize text)))).
  { apply makeChains1_keys. exists w. rewrite E. split; [now left | reflexivity]. }
  simpl in Hnil. rewrite Hnil in H. destruct H.
Qed.

Lemma makeText1_returns (rng : nat -> Q) (text : string) (numWords : Z)
    (fuel : nat) :
  valid_rng rng -> tokenize text <> [] ->
  (Z.to_nat numWords <= fuel)%nat ->
  exists out key,
    choice (rng 0%nat) (Some (map_keys (Markov.chains (Markov.constructor text))))
      = Return key
    /\ In key (map_keys (Markov.chains (Markov.constructor text)))
    /\ Markov.makeText_loop rng fuel (Markov.chains (Markov.constructor text))
         numWords [] key 1 = Return out.
Proof.
  intros Hrng Hne Hfuel.
  pose proof (chains1_nonempty text Hne) as Hchains.
  assert (Hclosed : closed (Markov.chains (Markov.constructor text)))
    by apply makeChains1_closed, is_token_nonempty, tokenize_tokens.
  assert (Hkeys : map_keys (Markov.chains (Markov.constructor text)) <> [])
    by (destruct (Markov.chains (Markov.constructor text));
        [contradiction | discriminate]).
  destruct (Hrng 0%nat) as [H0 H1].
  destruct (choice_in (rng 0%nat) _ H0 H1 Hkeys) as (key & Hc & Hkey).
  destruct (loop1_safe rng _ numWords fuel Hrng Hclosed [] key 1) as [out Hout].
  - unfold steps_left1. simpl. lia.
  - now right.
  - exists out, key. auto.
Qed.

Lemma makeText1_between (rng : nat -> Q) (text : string) (numWords : Z)
    (fuel : nat) :
  valid_rng rng -> tokenize text <> [] -> (1 <= numWords)%Z ->
  (Z.to_nat numWords <= fuel)%nat ->
  exists s,
    Markov.makeText rng (Markov.constructor text) numWords fuel = Return s
    /\ (1 <= List.length (tokenize s) <= Z.to_nat numWords)%nat.
Proof.
  intros Hrng Hne Hn Hfuel.
  destruct (makeText1_returns rng text numWords fuel Hrng Hne Hfuel)
    as (out & key & Hc & Hkey & Hloop).
  assert (Hout : Markov.makeText_out rng (Markov.constructor text) numWords fuel
                 = Return out).
  { unfold Markov.makeText_out. now rewrite Hc. }
  exists (join " " out). split.
  { unfold Markov.makeText. now rewrite Hout. }
  pose proof Hout as Hcorpus.
  apply makeText1_output in Hcorpus as (Hlen & Hcorpus & _).
  apply corpus_tokens_strings in Hcorpus as (ws & -> & Hws).
  rewrite tokenize_join_tokens by (eapply corpus_words_tokens; eauto).
  rewrite length_map in Hlen. unfold steps_left1 in Hlen.
  split; [|lia].
  destruct (Z_lt_le_dec (Z.of_nat (List.length ws)) numWords) as [Hshort|Hfull];
    [|lia].
  apply loop1_short in Hloop; [|rewrite length_map; exact Hshort].
  destruct Hloop as [[-> _]|(body & last & ar & Hbody & _)].
  - apply makeChains1_keys in Hkey as (w & _ & Hw). discriminate.
  - simpl in Hbody. apply (f_equal (@List.length value)) in Hbody.
    rewrite length_map, length_app in Hbody. simpl in Hbody. lia.
Qed.

(** The order-1 generator, with random numbers in [[0, 1)] and a bound of at
    least one word, raises exactly on the texts without a word; on every
    other text it returns between one and [numWords] words. *)
Theorem order1_returns_unless_blank (rng : nat -> Q) (text : string)
    (numWords : Z) (fuel : nat) :
  valid_rng rng -> (1 <= numWords)%Z -> (Z.to_nat numWords <= fuel)%nat ->
  (tokenize text = [] ->
     Markov.makeText rng (Markov.constructor text) numWords fuel = Throw TypeError)
  /\ (tokenize text <> [] ->
        exists s,
          Markov.makeText rng (Markov.constructor text) numWords fuel = Return s
          /\ (1 <= List.length (tokenize s) <= Z.to_nat numWords)%nat).
Proof.
  intros Hrng Hn Hfuel. split.
  - intros Hnil. destruct fuel as [|fuel]; [lia|].
    apply empty_table_raises1; [|exact Hn].
    simpl. now rewrite Hnil.
  - intros Hne. now apply makeText1_between.
Qed.

Lemma order1_returns_unless_blank_witness :
  valid_rng (rng_const (1 # 2)) /\ (1 <= 3)%Z /\ (Z.to_nat 3 <= 3)%nat
  /\ tokenize the_cat_in_the_hat <> []
  /\ exists s,
       Markov.makeText (rng_const (1 # 2)) (Markov.constructor the_cat_in_the_hat)
         3 3 = Return s
       /\ (1 <= List.length (tokenize s) <= Z.to_nat 3)%nat.
Proof.
  assert (H1 : (1 <= 3)%Z) by lia.
  assert (H2 : (Z.to_nat 3 <= 3)%nat) by (vm_compute; apply le_n).
  assert (H3 : tokenize the_cat_in_the_hat <> []) by (vm_compute; discriminate).
  split; [exact rng_const_half_valid|]. split; [exact H1|]. split; [exact H2|].
  split; [exact H3|].
  exact (proj2 (order1_returns_unless_blank (rng_const (1 # 2))
                  the_cat_in_the_hat 3 3 rng_const_half_valid H1 H2) H3).
Defined.

(** ** [generateText] of the two command-line tools *)

(** makeText.js: with random numbers in [[0, 1)], [generateText] raises on a
    text made of separators only, and on every other text it hands a line of
    between one and a hundred words to [console.log]. *)
Theorem generateText_order1 (rng : nat -> Q) (text : string) (fuel : nat) :
  valid_rng rng -> (100 <= fuel)%nat ->
  (all_delims text -> MakeText.generateText rng text fuel = Throw TypeError)
  /\ (~ all_delims text ->
        exists line,
          MakeText.generateText rng text fuel = Return line
          /\ (1 <= List.length (tokenize line) <= 100)%nat).
Proof.
  intros Hrng Hfuel. unfold MakeText.generateText, default_numWords. split.
  - intros Hblank. apply tokenize_nil_delims in Hblank.
    destruct fuel as [|fuel]; [lia|].
    apply empty_table_raises1; [|lia]. simpl. now rewrite Hblank.
  - intros Hword.
    assert (Hne : tokenize text <> [])
      by (intros Hnil; apply Hword, tokenize_nil_delims, Hnil).
    destruct (makeText1_between rng text 100 fuel Hrng Hne) as (s & Hs & Hlen);
      [lia | simpl; lia|].
    exists s. split; [exact Hs|]. simpl in Hlen. lia.
Qed.

Lemma generateText_order1_witness :
  valid_rng (rng_const (1 # 2)) /\ (100 <= 100)%nat
  /\ ~ all_delims the_cat_in_the_hat
  /\ exists line,
       MakeText.generateText (rng_const (1 # 2)) the_cat_in_the_hat 100
         = Return line
       /\ (1 <= List.length (tokenize line) <= 100)%nat.
Proof.
  assert (H1 : (100 <= 100)%nat) by apply le_n.
  assert (H2 : ~ all_delims the_cat_in_the_hat) by (vm_compute; discriminate).
  split; [exact rng_const_half_valid|]. split; [exact H1|]. split; [exact H2|].
  exact (proj2 (generateText_order1 (rng_const (1 # 2)) the_cat_in_the_hat 100
                  rng_const_half_valid H1) H2).
Defined.

(** makeTextBigram.js: [generateText] raises on every text of fewer than two
    words, and a line that it hands to [console.log] has 101 words. *)
Theorem generateText_bigram (rng : nat -> Q) (text : string) (fuel : nat) :
  ((List.length (tokenize text) < 2)%nat ->
     MakeTextBigram.generateText rng text (S fuel) = Throw TypeError)
  /\ (forall line,
        MakeTextBigram.generateText rng text fuel = Return line ->
        List.length (tokenize line) = 101%nat).
Proof.
  unfold MakeTextBigram.generateText, default_numWords. split.
  - intros Hshort. apply empty_table_raises2; [|lia].
    simpl. now apply makeChains2_short.
  - intros line H. now apply makeText2_exact in H.
Qed.

Lemma generateText_bigram_witness :
  (List.length (tokenize "hello") < 2)%nat
  /\ MakeTextBigram.generateText (rng_const 0) "hello" 1 = Throw TypeError.
Proof.
  assert (H : (List.length (tokenize "hello") < 2)%nat)
    by (vm_compute; apply le_n).
  split; [exact H|].
  exact (proj1 (generateText_bigram (rng_const 0) "hello" 0) H).
Defined.

(** ** END in the order-2 table *)

Lemma bigram_key_eqb (x y a b : string) :
  no_space x -> no_space y ->
  value_eqb (bigram_key x y) (bigram_key a b)
  = (String.eqb x a && String.eqb y b)%bool.
Proof.
  intros Hx Hy. unfold bigram_key. simpl.
  destruct (String.eqb x a && String.eqb y b)%bool eqn:E.
  - apply andb_true_iff in E as [Ea Eb].
    apply String.eqb_eq in Ea, Eb. subst. apply String.eqb_refl.
  - apply String.eqb_neq. intros Heq.
    destruct (bigram_inj x y a b Hx Hy Heq) as [-> ->].
    now rewrite !String.eqb_refl in E.
Qed.

(** In the order-2 table END is stored in one place only: as the last
    element of the array of the last adjacent pair of the corpus.  Every
    other entry is a word. *)
Theorem makeChains2_end (words : list string) (a b : string) (ar : list value) :
  Forall is_token words ->
  map_get (Bigram.makeChains words) (bigram_key a b) = Some ar ->
  (In VNull ar <->
   nth_error words (List.length words - 2) = Some a
   /\ nth_error words (List.length words - 1) = Some b)
  /\ exists body,
       Forall (fun v => v <> VNull) body
       /\ (ar = body \/ ar = body ++ [VNull]).
Proof.
  intros Htok Hget. rewrite makeChains2_build, build_get in Hget.
  pose proof (is_token_nonempty _ Htok) as Hne.
  destruct (List.length words - 1)%nat as [|m] eqn:En; [discriminate|].
  apply opt_list_some in Hget as [<- _].
  destruct (observed_end
              (fun i => js_concat (js_concat (word_at words (Z.of_nat i)) (VStr " "))
                                  (word_at words (Z.of_nat i + 1)))
              (fun i => js_or (word_at words (Z.of_nat i + 2)) VNull)
              m (bigram_key a b))
    as (body & Hbody & ->).
  - intros i Hi. change 2%Z with (Z.of_nat 2). rewrite word_at_plus.
    apply next_word_defined; [exact Hne | lia].
  - change 2%Z with (Z.of_nat 2). rewrite word_at_plus.
    apply next_word_end. lia.
  - replace (List.length words - 2)%nat with m by lia.
    destruct (pair_in_range words m) as (x & y & Hx & Hy); [lia|].
    rewrite (bigram_at _ _ _ _ Hx Hy), Hx.
    replace (m + 1)%nat with (S m) in Hy by lia. rewrite Hy.
    rewrite bigram_key_eqb by (eapply word_is_token; eauto).
    destruct (String.eqb x a && String.eqb y b)%bool eqn:E.
    + apply andb_true_iff in E as [Ea Eb].
      apply String.eqb_eq in Ea, Eb. subst x y. split.
      * split; [auto | intros _; apply in_or_app; right; now left].
      * exists body. auto.
    + rewrite app_nil_r. split.
      * split.
        -- intros Hin. rewrite Forall_forall in Hbody. now destruct (Hbody _ Hin).
        -- intros [[= ->] [= ->]]. now rewrite !String.eqb_refl in E.
      * exists body. auto.
Qed.

Lemma makeChains2_end_witness :
  Forall is_token ["the"; "cat"; "in"; "the"; "hat"]
  /\ map_get (Bigram.makeChains ["the"; "cat"; "in"; "the"; "hat"])
       (bigram_key "the" "hat") = Some [VNull]
  /\ (In VNull [VNull] <->
      nth_error ["the"; "cat"; "in"; "the"; "hat"] 3 = Some "the"
      /\ nth_error ["the"; "cat"; "in"; "the"; "hat"] 4 = Some "hat").
Proof.
  assert (H : Forall is_token ["the"; "cat"; "in"; "the"; "hat"])
    by (repeat constructor; discriminate).
  assert (G : map_get (Bigram.makeChains ["the"; "cat"; "in"; "the"; "hat"])
                (bigram_key "the" "hat") = Some [VNull]) by reflexivity.
  split; [exact H|]. split; [exact G|].
  exact (proj1 (makeChains2_end _ "the" "hat" [VNull] H G)).
Defined.
